(** * Voice assistant client: PCM codec, playback scheduler, capture gate,
      tool dispatcher and session orchestrator.

    A shallow embedding of [src/utils/audioUtils.ts],
    [src/utils/audioManager.ts], [src/utils/tools.ts] and of the session
    handlers of the [App] component, with the properties of the
    specification stated and settled against it.

    Conventions.
    - JS numbers that carry audio samples or times are modelled by exact
      rationals ([Q]).  Every finite [Float32Array] element is a rational,
      and on samples in [-1,1] the codec's multiplications by [0x7FFF] and
      [0x8000] and the division by [32768] are exact in binary64, so the
      codec model is exact; for times and for the noise gate the model is
      the exact-arithmetic reading of the source expressions.
    - A binary string (all code units below 256) is a [string]; Rocq's
      [ascii] is exactly one such code unit.
    - Promise-returning code is modelled in a state-and-exception monad over
      a [World] with a virtual clock in milliseconds. *)

From Stdlib Require Import Ascii String.
From Stdlib Require Import Reals Qreals R_sqrt Lra.
From Stdlib Require Import DecimalString.
From Stdlib Require Import ZArith QArith Qabs Qround Qminmax Lia Lqa Bool List.
Import ListNotations.

Local Open Scope Z_scope.

(** Let [lia] reason about division and remainder by constants. *)
Ltac Zify.zify_post_hook ::= Z.to_euclidean_division_equations.

(* ================================================================= *)
(** ** Base64 framing: [btoa] and [atob] *)

Module Base64.

(** Code unit of a character, and the character of a code unit
    ([charCodeAt] and [String.fromCharCode] on binary strings). *)
Definition charCode (c : ascii) : Z := Z.of_N (N_of_ascii c).
Definition fromCharCode (b : Z) : ascii := ascii_of_N (Z.to_N (b mod 256)).

(** The base64 alphabet: index to character. *)
Definition b64char (n : Z) : ascii :=
  if n <? 26 then fromCharCode (65 + n)
  else if n <? 52 then fromCharCode (97 + (n - 26))
  else if n <? 62 then fromCharCode (48 + (n - 52))
  else if n =? 62 then "+"%char
  else "/"%char.

(** Character to index; [None] outside the alphabet. *)
Definition b64val (c : ascii) : option Z :=
  let k := charCode c in
  if (65 <=? k) && (k <=? 90) then Some (k - 65)
  else if (97 <=? k) && (k <=? 122) then Some (k - 97 + 26)
  else if (48 <=? k) && (k <=? 57) then Some (k - 48 + 52)
  else if k =? 43 then Some 62
  else if k =? 47 then Some 63
  else None.

Definition pad : ascii := "="%char.

(** [btoa] on the code units of a binary string: three bytes give four
    characters, the tail is padded. *)
Fixpoint btoa_units (bs : list Z) : list ascii :=
  match bs with
  | a :: b :: c :: rest =>
      b64char (a / 4) :: b64char ((a mod 4) * 16 + b / 16)
        :: b64char ((b mod 16) * 4 + c / 64) :: b64char (c mod 64)
        :: btoa_units rest
  | [a; b] =>
      [b64char (a / 4); b64char ((a mod 4) * 16 + b / 16);
       b64char ((b mod 16) * 4); pad]
  | [a] => [b64char (a / 4); b64char ((a mod 4) * 16); pad; pad]
  | [] => []
  end.

Definition btoa (s : string) : string :=
  string_of_list_ascii (btoa_units (map charCode (list_ascii_of_string s))).

(** [atob] is the forgiving base64 decoder of the HTML standard. *)
Definition is_ascii_whitespace (c : ascii) : bool :=
  let k := charCode c in
  (k =? 9) || (k =? 10) || (k =? 12) || (k =? 13) || (k =? 32).

Definition is_pad (c : ascii) : bool := charCode c =? 61.

Definition strip_padding (d : list ascii) : list ascii :=
  match rev d with
  | c1 :: c2 :: r =>
      if is_pad c1 then (if is_pad c2 then rev r else rev (c2 :: r)) else d
  | [c1] => if is_pad c1 then [] else d
  | [] => d
  end.

Fixpoint sextets (d : list ascii) : option (list Z) :=
  match d with
  | [] => Some []
  | c :: r =>
      match b64val c, sextets r with
      | Some v, Some vs => Some (v :: vs)
      | _, _ => None
      end
  end.

(** Four sextets give three bytes; a tail of two or three sextets gives
    one or two bytes, the spare low bits being discarded. *)
Fixpoint decode_sextets (v : list Z) : list Z :=
  match v with
  | a :: b :: c :: d :: rest =>
      (a * 4 + b / 16) :: ((b mod 16) * 16 + c / 4) :: ((c mod 4) * 64 + d)
        :: decode_sextets rest
  | [a; b; c] => [a * 4 + b / 16; (b mod 16) * 16 + c / 4]
  | [a; b] => [a * 4 + b / 16]
  | _ => []
  end.

Definition atob_units (s : list ascii) : option (list Z) :=
  let d := filter (fun c => negb (is_ascii_whitespace c)) s in
  let d := if (Z.of_nat (length d) mod 4 =? 0) then strip_padding d else d in
  if Z.of_nat (length d) mod 4 =? 1 then None
  else option_map decode_sextets (sextets d).

(** [None] stands for the [InvalidCharacterError] that [atob] throws. *)
Definition atob (s : string) : option string :=
  option_map (fun bs => string_of_list_ascii (map fromCharCode bs))
             (atob_units (list_ascii_of_string s)).

(** The unpadded sextets of a byte sequence and the padding that follows. *)
Fixpoint enc (bs : list Z) : list Z :=
  match bs with
  | a :: b :: c :: rest =>
      (a / 4) :: ((a mod 4) * 16 + b / 16) :: ((b mod 16) * 4 + c / 64)
        :: (c mod 64) :: enc rest
  | [a; b] => [a / 4; (a mod 4) * 16 + b / 16; (b mod 16) * 4]
  | [a] => [a / 4; (a mod 4) * 16]
  | [] => []
  end.

Definition padding (bs : list Z) : list ascii :=
  match (length bs mod 3)%nat with
  | 1%nat => [pad; pad]
  | 2%nat => [pad]
  | _ => []
  end.

Definition is_byte (b : Z) : Prop := 0 <= b < 256.
Definition is_sextet (v : Z) : Prop := 0 <= v < 64.

End Base64.

(* ================================================================= *)
(** ** JS exceptions and results *)

(** A thrown JS error: its [name] and its [message]. *)
Record JsError : Type := mkError { err_name : string; err_message : string }.

Inductive Result (A : Type) : Type :=
| Returned (a : A)
| Thrown (e : JsError).
Arguments Returned {A} a.
Arguments Thrown {A} e.

(** Errors raised by the platform APIs the codec calls. *)
Definition InvalidCharacterError : JsError :=
  mkError "InvalidCharacterError" "The string to be decoded is not correctly encoded.".
Definition RangeError : JsError :=
  mkError "RangeError" "byte length of Int16Array should be a multiple of 2".
Definition NotSupportedError : JsError :=
  mkError "NotSupportedError" "The number of frames provided (0) is less than or equal to the minimum bound (0).".

(* ================================================================= *)
(** ** PCM codec ([src/utils/audioUtils.ts]) *)

Module AudioUtils.
Import Base64.

(** Conversion of a number to an [Int16Array] element: truncate toward
    zero, then wrap modulo 2^16 into the signed range. *)
Definition Qtrunc (v : Q) : Z :=
  if Qlt_le_dec v 0 then Qceiling v else Qfloor v.

Definition is_int16 (q : Z) : Prop := -32768 <= q <= 32767.

Definition wrap16 (z : Z) : Z := (z + 32768) mod 65536 - 32768.

Definition toInt16 (v : Q) : Z := wrap16 (Qtrunc v).

(** [float32ToInt16]: clamp to [-1,1], scale by 0x8000 below zero and by
    0x7FFF otherwise, store into an [Int16Array]. *)
Definition sampleToInt16 (x : Q) : Z :=
  let s := Qmax (-1) (Qmin 1 x) in
  toInt16 (if Qlt_le_dec s 0 then s * 32768 else s * 32767).

Definition float32ToInt16 (float32Array : list Q) : list Z :=
  map sampleToInt16 float32Array.

(** The bytes of an [Int16Array] buffer seen through a [Uint8Array]
    (little-endian, two's complement), and the converse view. *)
Definition uint8_view (int16Data : list Z) : list Z :=
  flat_map (fun q => [q mod 256; (q / 256) mod 256]) int16Data.

Fixpoint int16_view (bytes : list Z) : list Z :=
  match bytes with
  | lo :: hi :: rest =>
      (let u := lo + 256 * hi in if u <? 32768 then u else u - 65536)
        :: int16_view rest
  | _ => []
  end.

Record Blob : Type := mkBlob { data : string; mimeType : string }.

Definition decimal (n : Z) : string := NilZero.string_of_int (Z.to_int n).

(** [createAudioBlob(int16Data, sampleRate = 16000)]. *)
Definition createAudioBlob (int16Data : list Z) (sampleRate : Z) : Blob :=
  let uint8Array := uint8_view int16Data in
  let base64 := btoa (string_of_list_ascii (map fromCharCode uint8Array)) in
  {| data := base64;
     mimeType := "audio/pcm;rate=" ++ decimal sampleRate |}.

Definition inputSampleRate : Z := 16000.

(** An [AudioBuffer]: [channelData] holds [numberOfChannels] arrays of
    [length] samples. *)
Record AudioBuffer : Type := mkAudioBuffer {
  numberOfChannels : nat;
  length : nat;
  sampleRate : Z;
  channelData : list (list Q)
}.

Definition duration (b : AudioBuffer) : Q :=
  inject_Z (Z.of_nat (length b)) / inject_Z (sampleRate b).

(** [audioContext.createBuffer]: the frame count is converted to an
    unsigned integer; a buffer with no channel or no frame is refused with
    a [NotSupportedError]. *)
Definition createBuffer (numChannels frameCount : nat) (rate : Z)
  : Result AudioBuffer :=
  if ((numChannels =? 0) || (frameCount =? 0))%nat then Thrown NotSupportedError
  else Returned {| numberOfChannels := numChannels;
                   length := frameCount;
                   sampleRate := rate;
                   channelData := repeat (repeat 0%Q frameCount) numChannels |}.

(** Playback value of an integer sample: [q / 32768.0]. *)
Definition dequantize (q : Z) : Q := inject_Z q / 32768.

(** [decodeAudioData(base64String, audioContext, sampleRate = 24000,
    numChannels = 1)].  [new Int16Array(bytes.buffer)] throws a
    [RangeError] on an odd byte length. *)
Definition decodeAudioData (base64String : string) (rate : Z) (numChannels : nat)
  : Result AudioBuffer :=
  match atob base64String with
  | None => Thrown InvalidCharacterError
  | Some binaryString =>
      let bytes := map charCode (list_ascii_of_string binaryString) in
      if Nat.odd (List.length bytes) then Thrown RangeError
      else
        let dataInt16 := int16_view bytes in
        let frameCount := (List.length dataInt16 / numChannels)%nat in
        match createBuffer numChannels frameCount rate with
        | Thrown e => Thrown e
        | Returned buffer =>
            Returned {|
              numberOfChannels := numberOfChannels buffer;
              length := length buffer;
              sampleRate := sampleRate buffer;
              channelData :=
                map (fun channel =>
                       map (fun i =>
                              dequantize (nth (i * numChannels + channel) dataInt16 0))
                           (seq 0 frameCount))
                    (seq 0 numChannels) |}
        end
  end.

Definition outputSampleRate : Z := 24000.

(** [calculateRMS]'s radicand: the mean of the squares. *)
Definition mean_square (inputData : list Q) : Q :=
  fold_left (fun sum x => sum + x * x)%Q inputData 0%Q
  / inject_Z (Z.of_nat (List.length inputData)).

End AudioUtils.


(* ================================================================= *)
(** ** Capture gate and playback scheduler ([src/utils/audioManager.ts]) *)

Module AudioManager.
Import AudioUtils.

(** A playback node: its identity, its buffer and the time handed to
    [source.start]. *)
Record AudioBufferSourceNode : Type := mkSource {
  source_id : nat;
  buffer : AudioBuffer;
  startTime : Q
}.

(** The fields of the class that change after construction.  The audio
    context and the output analyser are assigned once by the constructor
    and never cleared, so the guard at the head of [playAudioChunk] never
    fires.  [created] counts the nodes made by [createBufferSource] and
    gives each node its identity; [stopped] lists the nodes [close] has
    called [stop()] on. *)
Record t : Type := mkManager {
  stream : bool;
  processor : bool;
  audioSources : list AudioBufferSourceNode;
  nextStartTime : Q;
  isClosed : bool;
  created : nat;
  stopped : list nat
}.

(** [new AudioManager()]. *)
Definition new : t :=
  {| stream := false; processor := false; audioSources := [];
     nextStartTime := 0; isClosed := false; created := 0; stopped := [] |}.

(** The part of [initializeInput] that runs once [getUserMedia] has
    resolved: keep the stream, create the processor and install the block
    callback. *)
Definition initializeInput_resume (m : t) : t :=
  {| stream := true; processor := true; audioSources := audioSources m;
     nextStartTime := nextStartTime m; isClosed := isClosed m;
     created := created m; stopped := stopped m |}.

(** Gate threshold for a sensitivity setting. *)
Definition threshold (sensitivity : Q) : Q :=
  0.001 + (1 - sensitivity) * 0.05.

(** [calculateRMS]: the root of the mean square, a real number. *)
Definition calculateRMS (inputData : list Q) : R :=
  sqrt (Q2R (mean_square inputData)).

(** The test [rms > threshold], decided without extracting the root:
    [sqrt v > t] exactly when [t < 0] or [t * t < v].  On an empty block
    the mean is [0/0 = NaN] and the comparison is false. *)
Definition rms_exceeds (inputData : list Q) (t : Q) : bool :=
  match inputData with
  | [] => false
  | _ =>
      if Qlt_le_dec t 0 then true
      else if Qlt_le_dec (t * t) (mean_square inputData) then true else false
  end.

(** The block callback installed by [initializeInput]: the blob handed to
    [onAudioData], if any. *)
Definition onaudioprocess (sensitivity : Q) (m : t) (inputData : list Q)
  : option Blob :=
  if isClosed m then None
  else if rms_exceeds inputData (threshold sensitivity)
       then Some (createAudioBlob (float32ToInt16 inputData) inputSampleRate)
       else None.

(** [playAudioChunk(base64Audio)] at context time [now]: the state after
    the call and the node it scheduled, if any.  A decoding failure is
    caught and logged; nothing else happens. *)
Definition schedule (now : Q) (base64Audio : string) (m : t)
  : t * option AudioBufferSourceNode :=
  match decodeAudioData base64Audio outputSampleRate 1 with
  | Thrown _ => (m, None)
  | Returned audioBuffer =>
      let start := Qmax now (nextStartTime m) in
      let source := {| source_id := created m;
                       buffer := audioBuffer;
                       startTime := start |} in
      ({| stream := stream m; processor := processor m;
          audioSources := audioSources m ++ [source];
          nextStartTime := start + duration audioBuffer;
          isClosed := isClosed m;
          created := S (created m);
          stopped := stopped m |},
       Some source)
  end.

Definition playAudioChunk (now : Q) (base64Audio : string) (m : t) : t :=
  fst (schedule now base64Audio m).

(** [source.onended]: the node leaves the live set. *)
Definition onended (id : nat) (m : t) : t :=
  {| stream := stream m; processor := processor m;
     audioSources := filter (fun s => negb (source_id s =? id)%nat) (audioSources m);
     nextStartTime := nextStartTime m; isClosed := isClosed m;
     created := created m; stopped := stopped m |}.

(** [close()]. *)
Definition close (m : t) : t :=
  {| stream := false; processor := false;
     audioSources := [];
     nextStartTime := 0;
     isClosed := true;
     created := created m;
     stopped := stopped m ++ map source_id (audioSources m) |}.

(** A run of enqueues: each entry is the context time at the call and the
    chunk.  [enqueue_all] is the final state, [timeline] the nodes
    scheduled, in order, each with the time of its call. *)
Fixpoint enqueue_all (m : t) (chunks : list (Q * string)) : t :=
  match chunks with
  | [] => m
  | (now, c) :: rest => enqueue_all (playAudioChunk now c m) rest
  end.

Fixpoint timeline (m : t) (chunks : list (Q * string))
  : list (Q * AudioBufferSourceNode) :=
  match chunks with
  | [] => []
  | (now, c) :: rest =>
      match schedule now c m with
      | (m', Some source) => (now, source) :: timeline m' rest
      | (m', None) => timeline m' rest
      end
  end.

(** Cursor values seen along a run, the initial one first. *)
Fixpoint cursors (m : t) (chunks : list (Q * string)) : list Q :=
  nextStartTime m ::
  match chunks with
  | [] => []
  | (now, c) :: rest => cursors (playAudioChunk now c m) rest
  end.

End AudioManager.

(* ================================================================= *)
(** ** Histories of one audio manager *)

Module AudioRuns.
Import AudioUtils AudioManager.

(** What can happen to a manager after its construction: a chunk is
    enqueued at some context time, a node ends, the microphone request of
    [initializeInput] resolves, or the manager is closed. *)
Inductive Op : Type :=
| Play (now : Q) (base64Audio : string)
| Ended (id : nat)
| InputReady
| Close.

Definition step (m : AudioManager.t) (op : Op) : AudioManager.t :=
  match op with
  | Play now c => playAudioChunk now c m
  | Ended id => onended id m
  | InputReady => initializeInput_resume m
  | Close => close m
  end.

Definition run (ops : list Op) : AudioManager.t := fold_left step ops new.

(** End of playback of a scheduled node. *)
Definition endTime (s : AudioBufferSourceNode) : Q :=
  startTime s + duration (buffer s).

(** The invariant of a manager's history. *)
Definition consistent (m : AudioManager.t) : Prop :=
  (0 <= nextStartTime m)%Q /\
  NoDup (map source_id (audioSources m)) /\
  Forall (fun s => (source_id s < created m)%nat /\
                   (0 < duration (buffer s))%Q /\
                   (endTime s <= nextStartTime m)%Q)
         (audioSources m).

End AudioRuns.

(* ================================================================= *)
(** ** JS values, the remote services and the world of the handlers *)

(** The JS values the handlers move around: [undefined] and strings.
    An object is the list of its properties. *)
Inductive JsVal : Type :=
| JUndefined
| JStr (s : string).

Definition JsObj : Type := list (string * JsVal).

(** Property read on an object; a missing property is [undefined]. *)
Fixpoint prop (o : JsObj) (k : string) : JsVal :=
  match o with
  | [] => JUndefined
  | (k', v) :: rest => if String.eqb k' k then v else prop rest k
  end.

(** String interpolation [`${v}`]. *)
Definition interpolate (v : JsVal) : string :=
  match v with
  | JUndefined => "undefined"
  | JStr s => s
  end.

(** Truthiness of a value. *)
Definition truthy (v : JsVal) : bool :=
  match v with
  | JUndefined => false
  | JStr s => negb (String.eqb s "")
  end.

(** [src/types]: connection states, log entries, media items, the
    uploaded file. *)
Inductive ConnectionState : Type :=
| DISCONNECTED | CONNECTING | CONNECTED | ERROR.

Inductive LogSource : Type := USER | JARVIS | SYSTEM.

Module LogType.
Inductive t : Type := info | error | success | command.
End LogType.

Record LogEntry : Type := mkLog {
  log_id : string;
  log_timestamp : string;
  log_source : LogSource;
  log_text : string;
  log_type : LogType.t
}.

Module MediaType.
Inductive t : Type := image | video | search | map.
End MediaType.

Record MediaItem : Type := mkMedia {
  media_id : string;
  media_type : MediaType.t;
  media_url : JsVal;
  media_content : JsVal;
  media_title : JsVal;
  media_metadata : JsVal;
  media_timestamp : string
}.

Record ActiveFile : Type := mkFile {
  file_name : string;
  file_content : string;
  file_type : string;
  file_size : N
}.

(** Requests to and answers from the generative service. *)
Inductive GenConfig : Type :=
| ThinkingConfig (thinkingBudget : N)
| GoogleSearch
| GoogleMaps (latLng : option (Q * Q))
| ImageConfig (aspectRatio : string) (imageSize : string).

Record GenRequest : Type := mkRequest {
  req_model : string;
  req_contents : JsVal;
  req_config : GenConfig
}.

(** [response.text], the grounding chunks of the first candidate and, for
    each part of its content, the [inlineData.data] it carries if any. *)
Record GenResponse : Type := mkResponse {
  resp_text : JsVal;
  resp_groundingChunks : JsVal;
  resp_parts : list (option JsVal)
}.

(** A video operation handle: [done] and
    [response?.generatedVideos?.[0]?.video?.uri]. *)
Record Operation : Type := mkOperation {
  op_done : bool;
  op_videoUri : JsVal
}.

(** Messages put on the outbound stream of the session. *)
Inductive Outbound : Type :=
| RealtimeMedia (blob : AudioUtils.Blob)
| RealtimeText (text : string)
| ToolResponse (id name : string) (response : JsObj).

(** Calls on the collaborators of the handlers, in the order made, with
    the virtual time of the call where the time matters. *)
Inductive Event : Type :=
| EvWindowOpen (url : string)
| EvGenerateContent (req : GenRequest)
| EvGenerateVideos (prompt : JsVal)
| EvGetVideosOperation
| EvFetch (url : string)
| EvGetUserMedia
| EvLiveConnect (voiceName : string)
| EvSessionClose
| EvSetConnectionState (st : ConnectionState)
| EvExecuteTool (at_ms : N) (id name : string)
| EvSend (at_ms : N) (msg : Outbound).

(** The services outside the program, as the handlers see them. *)
Record Env : Type := mkEnv {
  generateContent : GenRequest -> Result GenResponse;
  generateVideos : JsVal -> Result Operation;
  fetchObjectUrl : string -> Result string;
  getUserLocation : option (Q * Q);
  liveConnect : Result unit;
  getUserMedia : Result unit;
  roundTrip : N;
  randomId : nat -> string;
  toLocaleTimeString : N -> string;
  currentTime : N -> Q
}.

(** The mutable state the handlers share.  [clock] is a virtual clock in
    milliseconds; [pendingPolls] scripts the answers the service will give
    to the next calls of [getVideosOperation]; [rng] counts the random
    identifiers drawn. *)
Record World : Type := mkWorld {
  clock : N;
  rng : nat;
  pendingPolls : list (Result Operation);
  trace : list Event;
  logs : list LogEntry;
  mediaItems : list MediaItem;
  connectionState : ConnectionState;
  isMicActive : bool;
  isAwake : bool;
  audioManagerRef : option AudioManager.t;
  sessionRef : bool
}.

Definition set_clock (t : N) (w : World) : World :=
  mkWorld t (rng w) (pendingPolls w) (trace w) (logs w) (mediaItems w)
          (connectionState w) (isMicActive w) (isAwake w)
          (audioManagerRef w) (sessionRef w).
Definition set_rng (n : nat) (w : World) : World :=
  mkWorld (clock w) n (pendingPolls w) (trace w) (logs w) (mediaItems w)
          (connectionState w) (isMicActive w) (isAwake w)
          (audioManagerRef w) (sessionRef w).
Definition set_pendingPolls (p : list (Result Operation)) (w : World) : World :=
  mkWorld (clock w) (rng w) p (trace w) (logs w) (mediaItems w)
          (connectionState w) (isMicActive w) (isAwake w)
          (audioManagerRef w) (sessionRef w).
Definition set_trace (t : list Event) (w : World) : World :=
  mkWorld (clock w) (rng w) (pendingPolls w) t (logs w) (mediaItems w)
          (connectionState w) (isMicActive w) (isAwake w)
          (audioManagerRef w) (sessionRef w).
Definition set_logs (l : list LogEntry) (w : World) : World :=
  mkWorld (clock w) (rng w) (pendingPolls w) (trace w) l (mediaItems w)
          (connectionState w) (isMicActive w) (isAwake w)
          (audioManagerRef w) (sessionRef w).
Definition set_mediaItems (l : list MediaItem) (w : World) : World :=
  mkWorld (clock w) (rng w) (pendingPolls w) (trace w) (logs w) l
          (connectionState w) (isMicActive w) (isAwake w)
          (audioManagerRef w) (sessionRef w).
Definition set_connectionState (s : ConnectionState) (w : World) : World :=
  mkWorld (clock w) (rng w) (pendingPolls w) (trace w) (logs w) (mediaItems w)
          s (isMicActive w) (isAwake w)
          (audioManagerRef w) (sessionRef w).
Definition set_isMicActive (b : bool) (w : World) : World :=
  mkWorld (clock w) (rng w) (pendingPolls w) (trace w) (logs w) (mediaItems w)
          (connectionState w) b (isAwake w)
          (audioManagerRef w) (sessionRef w).
Definition set_isAwake (b : bool) (w : World) : World :=
  mkWorld (clock w) (rng w) (pendingPolls w) (trace w) (logs w) (mediaItems w)
          (connectionState w) (isMicActive w) b
          (audioManagerRef w) (sessionRef w).
Definition set_audioManagerRef (a : option AudioManager.t) (w : World) : World :=
  mkWorld (clock w) (rng w) (pendingPolls w) (trace w) (logs w) (mediaItems w)
          (connectionState w) (isMicActive w) (isAwake w)
          a (sessionRef w).
Definition set_sessionRef (s : bool) (w : World) : World :=
  mkWorld (clock w) (rng w) (pendingPolls w) (trace w) (logs w) (mediaItems w)
          (connectionState w) (isMicActive w) (isAwake w)
          (audioManagerRef w) s.

(* ================================================================= *)
(** ** Promise code as a state-and-exception monad *)

(** A computation settles with a value, rejects with an error, or is still
    pending when the scripted answers of the world run out. *)
Inductive Outcome (A : Type) : Type :=
| Settled (a : A)
| Rejected (e : JsError)
| Pending.
Arguments Settled {A} a.
Arguments Rejected {A} e.
Arguments Pending {A}.

Definition M (A : Type) : Type := World -> Outcome A * World.

Definition ret {A : Type} (a : A) : M A := fun w => (Settled a, w).

Definition bind {A B : Type} (m : M A) (k : A -> M B) : M B :=
  fun w =>
    match m w with
    | (Settled a, w') => k a w'
    | (Rejected e, w') => (Rejected e, w')
    | (Pending, w') => (Pending, w')
    end.

Definition throw {A : Type} (e : JsError) : M A := fun w => (Rejected e, w).

Definition pending {A : Type} : M A := fun w => (Pending, w).

Definition try_catch {A : Type} (m : M A) (handler : JsError -> M A) : M A :=
  fun w =>
    match m w with
    | (Rejected e, w') => handler e w'
    | r => r
    end.

Definition gets {A : Type} (f : World -> A) : M A := fun w => (Settled (f w), w).

Definition modify (f : World -> World) : M unit := fun w => (Settled tt, f w).

Definition lift {A : Type} (r : Result A) : M A :=
  match r with
  | Returned a => ret a
  | Thrown e => throw e
  end.

Declare Scope async_scope.
Delimit Scope async_scope with async.
Notation "x <- m ;; k" := (bind m (fun x => k))
  (at level 61, m at next level, right associativity) : async_scope.
Notation "m ;; k" := (bind m (fun _ => k))
  (at level 61, right associativity) : async_scope.
Local Open Scope async_scope.

(** Primitive effects. *)
Definition emit (e : Event) : M unit :=
  modify (fun w => set_trace (trace w ++ [e]) w).

(** Time passing while a promise is awaited. *)
Definition elapse (ms : N) : M unit :=
  modify (fun w => set_clock (clock w + ms)%N w).

(** [Math.random().toString(36).substring(...)]. *)
Definition freshId (env : Env) : M string :=
  n <- gets rng ;;
  modify (set_rng (S n)) ;;
  ret (randomId env n).

(** [new Date().toLocaleTimeString()]. *)
Definition timeString (env : Env) : M string :=
  t <- gets clock ;; ret (toLocaleTimeString env t).

Definition Error (message : string) : JsError := mkError "Error" message.

(** Reading a property of [undefined]. *)
Definition TypeError (what : string) : JsError :=
  mkError "TypeError"
          ("Cannot read properties of undefined (reading '" ++ what ++ "')").

(* ================================================================= *)
(** ** Tool dispatcher ([src/utils/tools.ts]) *)

Module Tools.
Local Open Scope string_scope.

(** The [args] of a function call; the object may be absent. *)
Definition Args : Type := option JsObj.

(** [args.k]: reading a property of an absent object throws. *)
Definition arg (args : Args) (k : string) : M JsVal :=
  match args with
  | None => throw (TypeError k)
  | Some o => ret (prop o k)
  end.

(** Awaiting the answer of a remote call. *)
Definition await {A : Type} (env : Env) (answer : Result A) : M A :=
  elapse (roundTrip env) ;; lift answer.

Definition result (v : JsVal) : JsObj := [("result", v)].

Definition newline : string := String (ascii_of_N 10) EmptyString.

Definition pollInterval : N := 3000.

(** The polling loop of [generate_video]: while the operation is not done,
    sleep for the interval and ask again.  The answers come from the
    script; when it runs out the operation is still pending. *)
Fixpoint pollLoop (env : Env) (script : list (Result Operation))
         (operation : Operation) : M Operation :=
  if op_done operation then ret operation
  else
    elapse pollInterval ;;
    match script with
    | [] => pending
    | answer :: rest =>
        emit EvGetVideosOperation ;;
        modify (set_pendingPolls rest) ;;
        operation' <- await env answer ;;
        pollLoop env rest operation'
    end.

(** The body of the [try] block: the [switch] on the capability name. *)
Definition executeTool_switch
           (env : Env) (name : string) (args : Args) (apiKey : string)
           (onMediaGenerated : MediaItem -> M unit)
           (activeFile : option ActiveFile) : M JsObj :=
  if String.eqb name "open_website" then
    url <- arg args "url" ;;
    match url with
    | JUndefined => throw (TypeError "startsWith")
    | JStr u =>
        let url := if prefix "http" u then u else "https://" ++ u in
        emit (EvWindowOpen url) ;;
        ret (result (JStr ("Opened website: " ++ url)))
    end
  else if String.eqb name "get_current_time" then
    now <- timeString env ;;
    ret (result (JStr ("Current time: " ++ now)))
  else if String.eqb name "read_active_file" then
    match activeFile with
    | None => ret (result (JStr "No file is currently uploaded."))
    | Some file =>
        let content :=
          if (50000 <? N.of_nat (String.length (file_content file)))%N
          then substring 0 (N.to_nat 50000) (file_content file)
               ++ "... [TRUNCATED]"
          else file_content file in
        ret (result (JStr ("File Name: " ++ file_name file ++ newline
                           ++ "Content:" ++ newline ++ content)))
    end
  else if String.eqb name "consult_logic_core" then
    query <- arg args "query" ;;
    let request := mkRequest "gemini-3-pro-preview" query (ThinkingConfig 16000) in
    emit (EvGenerateContent request) ;;
    response <- await env (generateContent env request) ;;
    ret (result (resp_text response))
  else if String.eqb name "search_web" then
    query <- arg args "query" ;;
    let request := mkRequest "gemini-2.5-flash" query GoogleSearch in
    emit (EvGenerateContent request) ;;
    response <- await env (generateContent env request) ;;
    let chunks := resp_groundingChunks response in
    let text := resp_text response in
    id <- freshId env ;;
    timestamp <- timeString env ;;
    onMediaGenerated
      {| media_id := id; media_type := MediaType.search;
         media_url := JUndefined; media_content := text;
         media_title := JUndefined; media_metadata := chunks;
         media_timestamp := timestamp |} ;;
    ret (result (JStr ("Search complete. I have displayed the results: "
                       ++ interpolate text)))
  else if String.eqb name "find_places" then
    let location := getUserLocation env in
    query <- arg args "query" ;;
    let request := mkRequest "gemini-2.5-flash" query (GoogleMaps location) in
    emit (EvGenerateContent request) ;;
    response <- await env (generateContent env request) ;;
    let chunks := resp_groundingChunks response in
    id <- freshId env ;;
    timestamp <- timeString env ;;
    onMediaGenerated
      {| media_id := id; media_type := MediaType.map;
         media_url := JUndefined; media_content := resp_text response;
         media_title := JUndefined; media_metadata := chunks;
         media_timestamp := timestamp |} ;;
    ret (result (JStr "I found some places. details are on the display."))
  else if String.eqb name "generate_image" then
    prompt <- arg args "prompt" ;;
    aspectRatio <- arg args "aspectRatio" ;;
    let request :=
      mkRequest "gemini-3-pro-image-preview" prompt
                (ImageConfig (if truthy aspectRatio
                              then interpolate aspectRatio else "16:9")
                             "1K") in
    emit (EvGenerateContent request) ;;
    response <- await env (generateContent env request) ;;
    let imageUrl :=
      match List.find (fun part => match part with Some _ => true | None => false end)
                      (resp_parts response) with
      | Some (Some data) => "data:image/png;base64," ++ interpolate data
      | _ => ""
      end in
    if negb (String.eqb imageUrl "") then
      id <- freshId env ;;
      timestamp <- timeString env ;;
      onMediaGenerated
        {| media_id := id; media_type := MediaType.image;
           media_url := JStr imageUrl; media_content := JUndefined;
           media_title := prompt; media_metadata := JUndefined;
           media_timestamp := timestamp |} ;;
      ret (result (JStr "Image generated and displayed on screen."))
    else ret (result (JStr "Failed to generate image."))
  else if String.eqb name "generate_video" then
    prompt <- arg args "prompt" ;;
    emit (EvGenerateVideos prompt) ;;
    operation <- await env (generateVideos env prompt) ;;
    script <- gets pendingPolls ;;
    operation <- pollLoop env script operation ;;
    let videoUri := op_videoUri operation in
    if truthy videoUri then
      let address := interpolate videoUri ++ "&key=" ++ apiKey in
      emit (EvFetch address) ;;
      url <- await env (fetchObjectUrl env address) ;;
      id <- freshId env ;;
      timestamp <- timeString env ;;
      onMediaGenerated
        {| media_id := id; media_type := MediaType.video;
           media_url := JStr url; media_content := JUndefined;
           media_title := prompt; media_metadata := JUndefined;
           media_timestamp := timestamp |} ;;
      ret (result (JStr "Video generated and ready to play."))
    else ret (result (JStr "Video generation failed."))
  else ret (result (JStr "Function not found")).

(** [executeTool]: the [switch] inside [try], the [catch] turning any
    error into a result.  The client object is built before the [try];
    its constructor is taken to succeed. *)
Definition executeTool
           (env : Env) (name : string) (args : Args) (apiKey : string)
           (onMediaGenerated : MediaItem -> M unit)
           (activeFile : option ActiveFile) : M JsObj :=
  try_catch
    (executeTool_switch env name args apiKey onMediaGenerated activeFile)
    (fun e => ret (result (JStr ("Error executing tool: " ++ err_message e)))).

End Tools.

(* ================================================================= *)
(** ** The declared capabilities *)

Module Declarations.
Local Open Scope string_scope.

(** [toolsDeclaration]: the name of each declared function and the
    parameters it marks as required. *)
Definition toolsDeclaration : list (string * list string) :=
  [("open_website", ["url"]);
   ("read_active_file", []);
   ("consult_logic_core", ["query"]);
   ("generate_image", ["prompt"]);
   ("generate_video", ["prompt"]);
   ("search_web", ["query"]);
   ("find_places", ["query"]);
   ("get_current_time", [])].

Definition declared (name : string) : Prop :=
  In name (map fst toolsDeclaration).

(** The capabilities that contact a remote service. *)
Definition remote (name : string) : Prop :=
  In name ["consult_logic_core"; "search_web"; "find_places";
           "generate_image"; "generate_video"].

(** The body [read_active_file] reports for a file content. *)
Definition reported (content : string) : string :=
  if (50000 <? N.of_nat (String.length content))%N
  then substring 0 (N.to_nat 50000) content ++ "... [TRUNCATED]"
  else content.

(** The request [generate_image] sends for an argument object, and the
    first inline payload of a response. *)
Definition imageRequest (o : JsObj) : GenRequest :=
  mkRequest "gemini-3-pro-image-preview" (prop o "prompt")
            (ImageConfig (if truthy (prop o "aspectRatio")
                          then interpolate (prop o "aspectRatio")
                          else "16:9")
                         "1K").

Definition firstInline (response : GenResponse) : option JsVal :=
  match List.find (fun part => match part with Some _ => true | None => false end)
                  (resp_parts response) with
  | Some (Some data) => Some data
  | _ => None
  end.

Definition not_done (operation : Operation) : Prop :=
  op_done operation = false.

(** The world after [n] status checks of a video operation: [n] sleeps
    and round trips have elapsed, [n] checks are on the trace and
    [remaining] answers are left. *)
Definition polled (env : Env) (n : nat) (remaining : list (Result Operation))
           (w : World) : World :=
  set_clock (clock w + N.of_nat n * (Tools.pollInterval + roundTrip env))%N
    (set_pendingPolls remaining
       (set_trace (trace w ++ repeat EvGetVideosOperation n)%list w)).

End Declarations.

(* ================================================================= *)
(** ** Session orchestrator (the handlers of the [App] component) *)

Module App.
Import Tools.
Local Open Scope string_scope.

Definition MODEL_NAME : string := "gemini-2.5-flash-native-audio-preview-09-2025".

Record Settings : Type := mkSettings {
  voiceName : string;
  wakeWordSensitivity : Q
}.

(** Inbound messages. *)
Record FunctionCall : Type := mkCall {
  fc_id : string;
  fc_name : string;
  fc_args : Args
}.

Record Part : Type := mkPart {
  inlineData : option JsVal;
  text : JsVal
}.

Record LiveServerMessage : Type := mkMessage {
  toolCall : option (list FunctionCall);
  serverContent_modelTurn_parts : option (list Part)
}.

(** [message.serverContent?.modelTurn?.parts?.[0]]. *)
Definition firstPart (message : LiveServerMessage) : option Part :=
  match serverContent_modelTurn_parts message with
  | Some (part :: _) => Some part
  | _ => None
  end.

(** [...parts?.[0]?.inlineData?.data] and [...parts?.[0]?.text]. *)
Definition firstInlineData (message : LiveServerMessage) : JsVal :=
  match firstPart message with
  | Some {| inlineData := Some data |} => data
  | _ => JUndefined
  end.

Definition firstText (message : LiveServerMessage) : JsVal :=
  match firstPart message with
  | Some part => text part
  | None => JUndefined
  end.

(** [addLog(source, text, type)]. *)
Definition addLog (env : Env) (source : LogSource) (text : string)
           (type : LogType.t) : M unit :=
  id <- freshId env ;;
  timestamp <- timeString env ;;
  modify (fun w => set_logs (logs w ++ [mkLog id timestamp source text type])%list w).

Definition toUpperCase (t : MediaType.t) : string :=
  match t with
  | MediaType.image => "IMAGE"
  | MediaType.video => "VIDEO"
  | MediaType.search => "SEARCH"
  | MediaType.map => "MAP"
  end.

(** [handleMediaGenerated(item)]. *)
Definition handleMediaGenerated (env : Env) (item : MediaItem) : M unit :=
  modify (fun w => set_mediaItems (mediaItems w ++ [item])%list w) ;;
  addLog env SYSTEM ("New Media Generated: " ++ toUpperCase (media_type item))
         LogType.success.

Definition setConnectionState (st : ConnectionState) : M unit :=
  modify (set_connectionState st) ;;
  emit (EvSetConnectionState st).

(** A message handed to the session once [sessionPromise] has resolved. *)
Definition send (msg : Outbound) : M unit :=
  now <- gets clock ;;
  emit (EvSend now msg).

(** [disconnect()]: the session is closed and forgotten, the audio manager
    is closed and forgotten, the state is reset. *)
Definition disconnect (env : Env) : M unit :=
  session <- gets sessionRef ;;
  (if session
   then emit EvSessionClose ;; modify (set_sessionRef false)
   else ret tt) ;;
  manager <- gets audioManagerRef ;;
  (match manager with
   | Some _ => modify (set_audioManagerRef None)
   | None => ret tt
   end) ;;
  setConnectionState DISCONNECTED ;;
  modify (set_isMicActive false) ;;
  modify (set_isAwake false) ;;
  addLog env SYSTEM "Disconnected." LogType.info.

(** [!apiKey] for [process.env.API_KEY]. *)
Definition missing (apiKey : option string) : bool :=
  match apiKey with
  | None => true
  | Some key => String.eqb key ""
  end.

Definition quote : string := String (ascii_of_N 34) EmptyString.

Definition awaitingWakeWord : string :=
  "Awaiting Wake Word: " ++ quote ++ "JARVIS" ++ quote
  ++ " or " ++ quote ++ "BESA" ++ quote.

(** The [try] block of [connect()], up to the resolution of
    [ai.live.connect]; the session callbacks are the handlers below. *)
Definition connect_attempt (env : Env) (apiKey : option string)
           (settings : Settings) : M unit :=
  awake <- gets isAwake ;;
  (if negb awake
   then addLog env SYSTEM awaitingWakeWord LogType.info ;;
        modify (set_isAwake true)
   else ret tt) ;;
  setConnectionState CONNECTING ;;
  addLog env SYSTEM "Initializing BESA core systems..." LogType.info ;;
  modify (set_audioManagerRef (Some AudioManager.new)) ;;
  (if missing apiKey then throw (Error "API_KEY not found.") else ret tt) ;;
  addLog env SYSTEM ("Connecting to " ++ MODEL_NAME ++ "...") LogType.info ;;
  emit (EvLiveConnect (voiceName settings)) ;;
  await env (liveConnect env) ;;
  modify (set_sessionRef true).

(** [connect()]: the attempt, and the [catch] that logs the failure, sets
    the state to [ERROR] and tears down. *)
Definition connect (env : Env) (apiKey : option string) (settings : Settings)
  : M unit :=
  try_catch
    (connect_attempt env apiKey settings)
    (fun error =>
       addLog env SYSTEM ("Initialization Failed: " ++ err_message error)
              LogType.error ;;
       setConnectionState ERROR ;;
       disconnect env).

(** [audioManager.initializeInput(onAudioData, sensitivity)]: the
    microphone request, then the installation of the block callback. *)
Definition initializeInput (env : Env) : M unit :=
  emit EvGetUserMedia ;;
  await env (getUserMedia env) ;;
  modify (fun w => set_audioManagerRef
                     (option_map AudioManager.initializeInput_resume
                                 (audioManagerRef w)) w).

(** The [onopen] callback. *)
Definition onopen (env : Env) (settings : Settings)
           (activeFile : option ActiveFile) : M unit :=
  addLog env SYSTEM ("Link Established. Voice: " ++ voiceName settings)
         LogType.success ;;
  setConnectionState CONNECTED ;;
  modify (set_isMicActive true) ;;
  manager <- gets audioManagerRef ;;
  (match manager with
   | Some _ => initializeInput env
   | None => ret tt
   end) ;;
  match activeFile with
  | Some file =>
      send (RealtimeText ("System Notification: User uploaded file '"
                          ++ file_name file ++ "'."))
  | None => ret tt
  end.

(** The block callback of the manager [m] with the [onAudioData] closure
    of [onopen]: an accepted block becomes one send. *)
Definition onAudioBlock (settings : Settings) (m : AudioManager.t)
           (inputData : list Q) : M unit :=
  match AudioManager.onaudioprocess (wakeWordSensitivity settings) m inputData with
  | Some blob => send (RealtimeMedia blob)
  | None => ret tt
  end.

(** One iteration of the loop over [message.toolCall.functionCalls]. *)
Definition handleCall (env : Env) (apiKey : string)
           (activeFile : option ActiveFile) (fc : FunctionCall) : M unit :=
  addLog env JARVIS ("Activating Tool: " ++ fc_name fc) LogType.command ;;
  try_catch
    (now <- gets clock ;;
     emit (EvExecuteTool now (fc_id fc) (fc_name fc)) ;;
     result <- executeTool env (fc_name fc) (fc_args fc) apiKey
                           (handleMediaGenerated env) activeFile ;;
     send (ToolResponse (fc_id fc) (fc_name fc) result))
    (fun error =>
       addLog env SYSTEM ("Tool Error: " ++ err_message error) LogType.error ;;
       send (ToolResponse (fc_id fc) (fc_name fc)
                          [("error", JStr (err_message error))])).

(** The [for ... of] loop: each iteration awaits its tool before the next
    one starts. *)
Fixpoint forEachCall (env : Env) (apiKey : string)
         (activeFile : option ActiveFile) (calls : list FunctionCall) : M unit :=
  match calls with
  | [] => ret tt
  | fc :: rest =>
      handleCall env apiKey activeFile fc ;;
      forEachCall env apiKey activeFile rest
  end.

(** [audioManagerRef.current?.playAudioChunk(audioData)]. *)
Definition playOnManager (env : Env) (audioData : string) : M unit :=
  manager <- gets audioManagerRef ;;
  match manager with
  | Some m =>
      now <- gets clock ;;
      modify (set_audioManagerRef
                (Some (AudioManager.playAudioChunk (currentTime env now)
                                                   audioData m)))
  | None => ret tt
  end.

(** The three branches of the [onmessage] callback, in program order:
    tool calls, audio output, text transcript. *)
Definition handleToolCalls (env : Env) (apiKey : string)
           (activeFile : option ActiveFile) (message : LiveServerMessage)
  : M unit :=
  match toolCall message with
  | Some functionCalls => forEachCall env apiKey activeFile functionCalls
  | None => ret tt
  end.

Definition handleAudio (env : Env) (message : LiveServerMessage) : M unit :=
  if truthy (firstInlineData message)
  then playOnManager env (interpolate (firstInlineData message))
  else ret tt.

Definition handleText (env : Env) (message : LiveServerMessage) : M unit :=
  if truthy (firstText message)
  then addLog env JARVIS (interpolate (firstText message)) LogType.info
  else ret tt.

(** The [onmessage] callback. *)
Definition onmessage (env : Env) (apiKey : string)
           (activeFile : option ActiveFile) (message : LiveServerMessage)
  : M unit :=
  handleToolCalls env apiKey activeFile message ;;
  handleAudio env message ;;
  handleText env message.

(** The [onclose] and [onerror] callbacks. *)
Definition onclose (env : Env) : M unit :=
  addLog env SYSTEM "Link severed." LogType.error ;;
  disconnect env.

Definition onerror (env : Env) (err : JsError) : M unit :=
  addLog env SYSTEM ("Protocol Error: " ++ err_message err) LogType.error.

(** The handlers the component and the session can invoke, and a history
    of invocations from the initial state of the component. *)
Inductive Handler : Type :=
| Connect (apiKey : option string) (settings : Settings)
| Disconnect
| OnOpen (settings : Settings) (activeFile : option ActiveFile)
| OnMessage (apiKey : string) (activeFile : option ActiveFile)
            (message : LiveServerMessage)
| OnClose
| OnError (err : JsError).

Definition handle (env : Env) (h : Handler) : M unit :=
  match h with
  | Connect apiKey settings => connect env apiKey settings
  | Disconnect => disconnect env
  | OnOpen settings activeFile => onopen env settings activeFile
  | OnMessage apiKey activeFile message => onmessage env apiKey activeFile message
  | OnClose => onclose env
  | OnError err => onerror env err
  end.

(** The component as mounted, with a script for the video service. *)
Definition mounted (polls : list (Result Operation)) : World :=
  {| clock := 0; rng := 0; pendingPolls := polls; trace := []; logs := [];
     mediaItems := []; connectionState := DISCONNECTED;
     isMicActive := false; isAwake := false;
     audioManagerRef := None; sessionRef := false |}.

Definition after (env : Env) (polls : list (Result Operation))
           (history : list Handler) : World :=
  fold_left (fun w h => snd (handle env h w)) history (mounted polls).

End App.

(* ================================================================= *)
(** ** Observations on runs of the handlers *)

Module Observe.
Import Tools App.

(** The events by which the orchestrator dispatches a tool and answers
    the call. *)
Definition orchestration (e : Event) : bool :=
  match e with
  | EvExecuteTool _ _ _ => true
  | EvSend _ (ToolResponse _ _ _) => true
  | _ => false
  end.

(** [quiet w w']: from [w] to [w'] the trace has only grown, by events
    that are not orchestration events, the clock has not gone back and the
    audio manager is the same. *)
Definition quiet (w w' : World) : Prop :=
  (exists evs, trace w' = trace w ++ evs /\
               Forall (fun e => orchestration e = false) evs) /\
  (clock w <= clock w')%N /\
  audioManagerRef w' = audioManagerRef w.

(** A small program logic: whatever the initial world, the step of [m] is
    in [R], a settled value satisfies [P], and [m] may stay pending only
    if [pend] holds. *)
Definition Spec {A : Type} (R : World -> World -> Prop) (P : A -> Prop)
           (pend : Prop) (m : M A) : Prop :=
  forall w,
    R w (snd (m w)) /\
    match fst (m w) with
    | Settled a => P a
    | Rejected _ => True
    | Pending => pend
    end.

(** What a step relation must allow for the primitive effects of the tool
    dispatcher to respect it. *)
Record Frame (R : World -> World -> Prop) : Prop := mkFrame {
  frame_refl : forall w, R w w;
  frame_trans : forall w1 w2 w3, R w1 w2 -> R w2 w3 -> R w1 w3;
  frame_emit : forall w e, orchestration e = false ->
                           R w (set_trace (trace w ++ [e]) w);
  frame_clock : forall w ms, R w (set_clock (clock w + ms)%N w);
  frame_rng : forall w n, R w (set_rng n w);
  frame_polls : forall w p, R w (set_pendingPolls p w)
}.

Definition any {A : Type} : A -> Prop := fun _ => True.

Definition unconstrained : World -> World -> Prop := fun _ _ => True.

(** A result object with the single property [result]. *)
Definition is_result (o : JsObj) : Prop := exists v, o = result v.

(** The orchestration events of a message whose calls are handled one
    after the other, from time [t0] to time [t1]: for each call in turn,
    its dispatch, then its answer under the same identifier and name, and
    only then the dispatch of the next call. *)
Inductive sequential : N -> list FunctionCall -> list Event -> N -> Prop :=
| sequential_nil : forall t, sequential t [] [] t
| sequential_cons : forall t0 t1 t2 fc rest response evs,
    (t0 <= t1)%N ->
    sequential t1 rest evs t2 ->
    sequential t0 (fc :: rest)
               (EvExecuteTool t0 (fc_id fc) (fc_name fc)
                :: EvSend t1 (ToolResponse (fc_id fc) (fc_name fc) response)
                :: evs)
               t2.

(** Dispatch times and answered identifiers in a list of events. *)
Definition dispatches (evs : list Event) : list (N * string) :=
  flat_map (fun e => match e with
                     | EvExecuteTool t id _ => [(t, id)]
                     | _ => []
                     end) evs.

Definition answers (evs : list Event) : list (string * string) :=
  flat_map (fun e => match e with
                     | EvSend _ (ToolResponse id name _) => [(id, name)]
                     | _ => []
                     end) evs.

(** An event that is not a tool answer, or a tool answer whose response
    is a [{result: ...}] object. *)
Definition answers_with_result (e : Event) : Prop :=
  match e with
  | EvSend _ (ToolResponse _ _ response) => is_result response
  | _ => True
  end.

(** [orderly w w']: from [w] to [w'] the connection state, the session and
    the two flags are the same; the log, the media items and the trace
    have only been appended to; no appended log line is an error line and
    every appended tool answer carries a result object; the clock has not
    gone back. *)
Definition orderly (w w' : World) : Prop :=
  connectionState w' = connectionState w /\
  sessionRef w' = sessionRef w /\
  isMicActive w' = isMicActive w /\
  isAwake w' = isAwake w /\
  (exists lines, logs w' = logs w ++ lines /\
                 Forall (fun l => log_type l <> LogType.error) lines) /\
  (exists items, mediaItems w' = mediaItems w ++ items) /\
  (exists evs, trace w' = trace w ++ evs /\ Forall answers_with_result evs) /\
  (clock w <= clock w')%N.

(** What holds of the component after any history of handler
    invocations: [ERROR] is never left behind; when the state is
    [DISCONNECTED] no session and no audio manager are held and the
    microphone flag is down; and whenever a session is held, so is an
    audio manager. *)
Definition settled_state (w : World) : Prop :=
  connectionState w <> ERROR /\
  (connectionState w = DISCONNECTED ->
   sessionRef w = false /\ audioManagerRef w = None /\ isMicActive w = false) /\
  (sessionRef w = true -> audioManagerRef w <> None).

(** The source, text and type of a log entry. *)
Definition log_line (l : LogEntry) : LogSource * string * LogType.t :=
  (log_source l, log_text l, log_type l).

(** Number of status checks of a video operation among events. *)
Definition count_status_checks (evs : list Event) : nat :=
  List.length (filter (fun e => match e with
                                | EvGetVideosOperation => true
                                | _ => false
                                end) evs).

End Observe.

(* ================================================================= *)
(** ** Sample environments, worlds and messages *)

Module Samples.
Import Tools App.
Local Open Scope string_scope.

(** A world at time zero, nothing connected, with a script of answers for
    the video operation. *)
Definition world (polls : list (Result Operation)) : World :=
  {| clock := 0; rng := 0; pendingPolls := polls; trace := []; logs := [];
     mediaItems := []; connectionState := DISCONNECTED;
     isMicActive := false; isAwake := false;
     audioManagerRef := None; sessionRef := false |}.

(** A connected world with a fresh audio manager. *)
Definition connected (polls : list (Result Operation)) : World :=
  {| clock := 0; rng := 0; pendingPolls := polls; trace := []; logs := [];
     mediaItems := []; connectionState := CONNECTED;
     isMicActive := true; isAwake := true;
     audioManagerRef := Some AudioManager.new; sessionRef := true |}.

Definition running : Operation := mkOperation false JUndefined.
Definition finished : Operation := mkOperation true (JStr "https://videos.example/v1?alt=media").

(** Services that answer at once; generation requests either succeed or
    fail with a quota error. *)
Definition services (healthy : bool) : Env :=
  {| generateContent := fun _ =>
       if healthy
       then Returned (mkResponse (JStr "4") JUndefined [])
       else Thrown (Error "quota exceeded");
     generateVideos := fun _ => Returned running;
     fetchObjectUrl := fun _ => Returned "blob:video";
     getUserLocation := None;
     liveConnect := Returned tt;
     getUserMedia := Returned tt;
     roundTrip := 0;
     randomId := fun _ => "k3x9";
     toLocaleTimeString := fun _ => "12:00:00";
     currentTime := fun ms => (inject_Z (Z.of_N ms) / 1000)%Q |}.

Definition settings : Settings := mkSettings "Fenrir" 0.6.

Definition videoCall : FunctionCall :=
  mkCall "1" "generate_video" (Some [("prompt", JStr "a sunrise")]).
Definition timeCall : FunctionCall :=
  mkCall "2" "get_current_time" None.

(** A message whose second part, not its first, carries audio, and one
    whose second part carries text. *)
Definition audioInSecondPart : LiveServerMessage :=
  mkMessage None (Some [mkPart None (JStr "hello"); mkPart (Some (JStr "AAA=")) JUndefined]).
Definition textInSecondPart : LiveServerMessage :=
  mkMessage None (Some [mkPart (Some (JStr "AAA=")) JUndefined; mkPart None (JStr "hello")]).

End Samples.
(* ----------------------------------------------------------------- *)
(** *** Round trip of the framing *)

Module Base64Facts.
Import Base64.

Lemma charCode_range c : 0 <= charCode c < 256.
Proof.
  unfold charCode. pose proof (N_ascii_bounded c). lia.
Qed.

Lemma fromCharCode_charCode c : fromCharCode (charCode c) = c.
Proof.
  unfold fromCharCode, charCode.
  pose proof (N_ascii_bounded c).
  rewrite Z.mod_small by lia.
  rewrite N2Z.id. apply ascii_N_embedding.
Qed.

Lemma charCode_fromCharCode b : 0 <= b < 256 -> charCode (fromCharCode b) = b.
Proof.
  intros Hb. unfold fromCharCode, charCode.
  rewrite Z.mod_small by lia.
  rewrite N_ascii_embedding by lia. lia.
Qed.

Lemma b64val_b64char n : 0 <= n < 64 -> b64val (b64char n) = Some n.
Proof.
  intros Hn.
  assert (Hall : forallb (fun k => match b64val (b64char (Z.of_nat k)) with
                                   | Some v => v =? Z.of_nat k
                                   | None => false
                                   end) (seq 0 64) = true) by (vm_compute; reflexivity).
  rewrite forallb_forall in Hall.
  specialize (Hall (Z.to_nat n)).
  rewrite Z2Nat.id in Hall by lia.
  assert (Hin : In (Z.to_nat n) (seq 0 64)) by (apply in_seq; lia).
  specialize (Hall Hin).
  destruct (b64val (b64char n)) as [v|]; [|discriminate].
  apply Z.eqb_eq in Hall. now subst.
Qed.

Lemma b64char_plain n :
  0 <= n < 64 ->
  is_pad (b64char n) = false /\ is_ascii_whitespace (b64char n) = false.
Proof.
  intros Hn.
  assert (Hall : forallb (fun k => negb (is_pad (b64char (Z.of_nat k)))
                                   && negb (is_ascii_whitespace (b64char (Z.of_nat k))))
                         (seq 0 64) = true) by (vm_compute; reflexivity).
  rewrite forallb_forall in Hall.
  specialize (Hall (Z.to_nat n)).
  rewrite Z2Nat.id in Hall by lia.
  assert (Hin : In (Z.to_nat n) (seq 0 64)) by (apply in_seq; lia).
  specialize (Hall Hin).
  apply andb_true_iff in Hall. destruct Hall as [H1 H2].
  apply negb_true_iff in H1. apply negb_true_iff in H2. now split.
Qed.

(** Induction three elements at a time. *)
Lemma list_ind3 (A : Type) (P : list A -> Prop) :
  P [] -> (forall a, P [a]) -> (forall a b, P [a; b]) ->
  (forall a b c l, P l -> P (a :: b :: c :: l)) ->
  forall l, P l.
Proof.
  intros H0 H1 H2 H3.
  assert (H : forall l, P l /\ (forall a, P (a :: l)) /\ (forall a b, P (a :: b :: l))).
  { induction l as [|x l [IH0 [IH1 IH2]]].
    - repeat split; auto.
    - repeat split; auto. }
  intros l. apply H.
Qed.

Lemma btoa_units_enc bs :
  btoa_units bs = map b64char (enc bs) ++ padding bs.
Proof.
  induction bs as [| a | a b | a b c l IH] using list_ind3; try reflexivity.
  cbn [btoa_units enc map app]. rewrite IH.
  unfold padding. cbn [length].
  replace (S (S (S (length l))) mod 3)%nat with (length l mod 3)%nat; [reflexivity|].
  change (S (S (S (length l)))) with (3 + length l)%nat.
  rewrite Nat.add_comm.
  replace (length l + 3)%nat with (length l + 1 * 3)%nat by lia.
  now rewrite Nat.Div0.mod_add.
Qed.

Lemma enc_sextets bs : Forall is_byte bs -> Forall is_sextet (enc bs).
Proof.
  unfold is_byte, is_sextet.
  induction bs as [| a | a b | a b c l IH] using list_ind3; intros H.
  - constructor.
  - inversion_clear H. cbn. repeat apply Forall_cons; try apply Forall_nil; lia.
  - inversion_clear H as [|? ? Ha H']. inversion_clear H'. cbn.
    repeat apply Forall_cons; try apply Forall_nil; lia.
  - inversion_clear H as [|? ? Ha H']. inversion_clear H' as [|? ? Hb H''].
    inversion_clear H'' as [|? ? Hc Hl].
    cbn [enc]. repeat apply Forall_cons; try lia. now apply IH.
Qed.

Lemma decode_enc bs : Forall is_byte bs -> decode_sextets (enc bs) = bs.
Proof.
  unfold is_byte.
  induction bs as [| a | a b | a b c l IH] using list_ind3; intros H.
  - reflexivity.
  - inversion_clear H. cbn. f_equal. lia.
  - inversion_clear H as [|? ? Ha H']. inversion_clear H'. cbn.
    f_equal; [lia|]. f_equal. lia.
  - inversion_clear H as [|? ? Ha H']. inversion_clear H' as [|? ? Hb H''].
    inversion_clear H'' as [|? ? Hc Hl].
    cbn [enc decode_sextets]. rewrite IH by assumption.
    f_equal; [lia|]. f_equal; [lia|]. f_equal. lia.
Qed.

Lemma enc_length_mod bs :
  Z.of_nat (length (enc bs)) mod 4 <> 1.
Proof.
  induction bs as [| a | a b | a b c l IH] using list_ind3;
    try (cbn; discriminate).
  cbn [enc length].
  replace (Z.of_nat (S (S (S (S (length (enc l))))))) with
    (Z.of_nat (length (enc l)) + 1 * 4) by lia.
  now rewrite Z.mod_add by lia.
Qed.

Lemma btoa_units_length_mod bs :
  Z.of_nat (length (btoa_units bs)) mod 4 = 0.
Proof.
  induction bs as [| a | a b | a b c l IH] using list_ind3;
    try reflexivity.
  cbn [btoa_units length].
  replace (Z.of_nat (S (S (S (S (length (btoa_units l))))))) with
    (Z.of_nat (length (btoa_units l)) + 1 * 4) by lia.
  now rewrite Z.mod_add by lia.
Qed.

Lemma sextets_map vs :
  Forall is_sextet vs -> sextets (map b64char vs) = Some vs.
Proof.
  induction 1 as [|v vs Hv _ IH]; [reflexivity|].
  cbn. rewrite b64val_b64char by exact Hv. now rewrite IH.
Qed.

Lemma strip_padding_app l p :
  Forall (fun c => is_pad c = false) l ->
  p = [] \/ p = [pad] \/ p = [pad; pad] ->
  strip_padding (l ++ p) = l.
Proof.
  intros Hl Hp.
  assert (Hrev : Forall (fun c => is_pad c = false) (rev l)).
  { apply Forall_forall. intros c Hc. apply in_rev in Hc.
    rewrite Forall_forall in Hl. auto. }
  assert (Hll : rev (rev l) = l) by apply rev_involutive.
  unfold strip_padding. rewrite rev_app_distr.
  destruct (rev l) as [|c1 r] eqn:E.
  - cbn in Hll. subst l.
    destruct Hp as [-> | [-> | ->]]; reflexivity.
  - inversion_clear Hrev as [|? ? H1 _].
    destruct Hp as [-> | [-> | ->]]; cbn [rev app].
    + rewrite app_nil_r. destruct r; now rewrite H1.
    + change (is_pad pad) with true. cbn iota. now rewrite H1.
    + change (is_pad pad) with true. cbn iota. exact Hll.
Qed.

Lemma atob_units_btoa_units bs :
  Forall is_byte bs -> atob_units (btoa_units bs) = Some bs.
Proof.
  intros Hb.
  pose proof (enc_sextets bs Hb) as Hs.
  assert (Hplain : Forall (fun c => is_pad c = false) (map b64char (enc bs))).
  { apply Forall_forall. intros c Hc. apply in_map_iff in Hc.
    destruct Hc as [v [<- Hv]]. rewrite Forall_forall in Hs.
    apply b64char_plain. now apply Hs. }
  assert (Hws : filter (fun c => negb (is_ascii_whitespace c)) (btoa_units bs)
                = btoa_units bs).
  { apply forallb_filter_id. apply forallb_forall. intros c Hc.
    rewrite btoa_units_enc in Hc. apply in_app_or in Hc.
    destruct Hc as [Hc | Hc].
    - apply in_map_iff in Hc. destruct Hc as [v [<- Hv]].
      rewrite Forall_forall in Hs.
      destruct (b64char_plain v (Hs v Hv)) as [_ ->]. reflexivity.
    - unfold padding in Hc.
      destruct (length bs mod 3)%nat as [|[|[|?]]]; cbn in Hc;
        intuition; subst; reflexivity. }
  unfold atob_units. rewrite Hws.
  rewrite btoa_units_length_mod. cbn [Z.eqb].
  rewrite btoa_units_enc.
  rewrite strip_padding_app; [| exact Hplain |].
  - rewrite length_map.
    pose proof (enc_length_mod bs) as Hm.
    destruct (Z.of_nat (length (enc bs)) mod 4 =? 1) eqn:E.
    + apply Z.eqb_eq in E. contradiction.
    + rewrite sextets_map by exact Hs. cbn. now rewrite decode_enc.
  - unfold padding.
    destruct (length bs mod 3)%nat as [|[|[|?]]]; auto.
Qed.

Lemma map_charCode_bytes l : Forall is_byte (map charCode l).
Proof.
  apply Forall_forall. intros b Hb. apply in_map_iff in Hb.
  destruct Hb as [c [<- _]]. apply charCode_range.
Qed.

(** Decoding an encoded binary string gives the string back. *)
Lemma atob_btoa s : atob (btoa s) = Some s.
Proof.
  unfold atob, btoa.
  rewrite list_ascii_of_string_of_list_ascii.
  rewrite atob_units_btoa_units by apply map_charCode_bytes.
  cbn. f_equal.
  rewrite map_map.
  rewrite (map_ext _ (fun c => c)) by (intros; apply fromCharCode_charCode).
  rewrite map_id. apply string_of_list_ascii_of_string.
Qed.

End Base64Facts.

(* ----------------------------------------------------------------- *)
(** *** Facts about the codec *)

Module CodecFacts.
Import Base64 Base64Facts AudioUtils.

Lemma wrap16_range z : is_int16 (wrap16 z).
Proof. unfold is_int16, wrap16. lia. Qed.

Lemma wrap16_id z : is_int16 z -> wrap16 z = z.
Proof. unfold is_int16, wrap16. lia. Qed.

Lemma float32ToInt16_range xs : Forall is_int16 (float32ToInt16 xs).
Proof.
  unfold float32ToInt16. apply Forall_forall. intros q Hq.
  apply in_map_iff in Hq. destruct Hq as [x [<- _]].
  apply wrap16_range.
Qed.

Lemma float32ToInt16_length xs :
  List.length (float32ToInt16 xs) = List.length xs.
Proof. apply length_map. Qed.

Lemma uint8_view_bytes qs : Forall is_byte (uint8_view qs).
Proof.
  unfold uint8_view, is_byte. induction qs as [|q qs IH]; cbn.
  - constructor.
  - repeat apply Forall_cons; try lia. exact IH.
Qed.

Lemma uint8_view_length qs :
  List.length (uint8_view qs) = (2 * List.length qs)%nat.
Proof.
  unfold uint8_view. induction qs as [|q qs IH]; cbn in *; [reflexivity|].
  rewrite IH. lia.
Qed.

Lemma int16_view_uint8_view qs :
  Forall is_int16 qs -> int16_view (uint8_view qs) = qs.
Proof.
  unfold is_int16. induction 1 as [|q qs Hq _ IH]; [reflexivity|].
  cbn [uint8_view flat_map app int16_view].
  fold (uint8_view qs). rewrite IH. f_equal.
  destruct (q mod 256 + 256 * ((q / 256) mod 256) <? 32768) eqn:E.
  - apply Z.ltb_lt in E. lia.
  - apply Z.ltb_ge in E. lia.
Qed.

Lemma charCode_fromCharCode_map bs :
  Forall is_byte bs -> map charCode (map fromCharCode bs) = bs.
Proof.
  induction 1 as [|b bs Hb _ IH]; [reflexivity|].
  cbn. rewrite IH. f_equal. now apply charCode_fromCharCode.
Qed.

Lemma map_nth_seq (A B : Type) (f : A -> B) (l : list A) (d : A) :
  map (fun i => f (nth (i * 1 + 0) l d)) (seq 0 (List.length l)) = map f l.
Proof.
  rewrite (map_ext _ (fun i => f (nth i l d))).
  2:{ intros i. now rewrite Nat.mul_1_r, Nat.add_0_r. }
  rewrite <- (map_map (fun i => nth i l d) f).
  f_equal. apply nth_ext with (d := d) (d' := d).
  - now rewrite length_map, length_seq.
  - intros n Hn. rewrite length_map, length_seq in Hn.
    rewrite (nth_indep _ d (nth 0 l d)) by (now rewrite length_map, length_seq).
    change (nth 0 l d) with ((fun i => nth i l d) 0%nat).
    rewrite map_nth. now rewrite seq_nth.
Qed.

(** Decoding a framed non-empty integer buffer on one channel gives its
    samples back, rescaled. *)
Lemma decode_frame qs rateIn rateOut :
  qs <> [] -> Forall is_int16 qs ->
  decodeAudioData (data (createAudioBlob qs rateIn)) rateOut 1 =
  Returned {| numberOfChannels := 1;
              length := List.length qs;
              sampleRate := rateOut;
              channelData := [map dequantize qs] |}.
Proof.
  intros Hne Hqs.
  unfold decodeAudioData, createAudioBlob. cbn [data].
  rewrite atob_btoa.
  rewrite list_ascii_of_string_of_list_ascii.
  rewrite charCode_fromCharCode_map by apply uint8_view_bytes.
  rewrite uint8_view_length.
  replace (Nat.odd (2 * List.length qs)) with false.
  2:{ symmetry. rewrite <- Nat.negb_even. rewrite Nat.even_mul. reflexivity. }
  rewrite int16_view_uint8_view by exact Hqs.
  rewrite Nat.div_1_r.
  unfold createBuffer.
  destruct qs as [|q qs']; [contradiction|].
  set (l := q :: qs') in *.
  assert (Hlen : (List.length l =? 0)%nat = false) by reflexivity.
  rewrite Hlen. cbn [Nat.eqb orb numberOfChannels length sampleRate seq map].
  f_equal. f_equal. f_equal.
  apply (map_nth_seq Z Q dequantize l 0).
Qed.

Lemma clamp_id x :
  (-1 <= x <= 1)%Q -> (Qmax (-1) (Qmin 1 x) == x)%Q.
Proof.
  intros [Hlo Hhi].
  assert (Hmin : (Qmin 1 x == x)%Q) by (apply Q.min_r; exact Hhi).
  rewrite Hmin. apply Q.max_r. exact Hlo.
Qed.

(** Truncation of a value in the scaled range stays in the 16-bit range,
    within one unit of the value and on the side of zero. *)
Lemma Qtrunc_neg v :
  (-32768 <= v)%Q -> (v < 0)%Q ->
  is_int16 (Qtrunc v) /\ (v <= inject_Z (Qtrunc v) < v + 1)%Q.
Proof.
  intros Hlo Hneg. unfold Qtrunc.
  destruct (Qlt_le_dec v 0) as [_ | Hge]; [| lra].
  pose proof (Qle_ceiling v) as Hc1.
  pose proof (Qceiling_lt v) as Hc2.
  unfold Z.sub in Hc2. rewrite inject_Z_plus in Hc2.
  change (inject_Z (- (1))) with (- (1))%Q in Hc2.
  split; [| split; lra].
  unfold is_int16. split.
  - rewrite Zle_Qle. change (inject_Z (-32768)) with (-32768)%Q. lra.
  - assert (H : (inject_Z (Qceiling v) < inject_Z 1)%Q).
    { change (inject_Z 1) with 1%Q. lra. }
    rewrite <- Zlt_Qlt in H. lia.
Qed.

Lemma Qtrunc_nonneg v :
  (0 <= v)%Q -> (v <= 32767)%Q ->
  is_int16 (Qtrunc v) /\ (v - 1 < inject_Z (Qtrunc v) <= v)%Q.
Proof.
  intros Hlo Hhi. unfold Qtrunc.
  destruct (Qlt_le_dec v 0) as [Hneg | _]; [lra |].
  pose proof (Qfloor_le v) as Hf1.
  pose proof (Qlt_floor v) as Hf2.
  rewrite inject_Z_plus in Hf2.
  change (inject_Z 1) with 1%Q in Hf2.
  split; [| split; lra].
  unfold is_int16. split.
  - assert (H : (inject_Z (-1) < inject_Z (Qfloor v))%Q).
    { change (inject_Z (-1)) with (-1)%Q. lra. }
    rewrite <- Zlt_Qlt in H. lia.
  - rewrite Zle_Qle. change (inject_Z 32767) with 32767%Q. lra.
Qed.

(** Quantization error of one sample through encode and decode: the decoded
    value never exceeds the sample in magnitude, and is less than one step
    [1/32768] away below zero, less than two steps away otherwise. *)
Lemma sampleToInt16_spec x :
  (-1 <= x <= 1)%Q ->
  is_int16 (sampleToInt16 x) /\
  ((x < 0 /\ 0 <= dequantize (sampleToInt16 x) - x < 1 # 32768) \/
   (0 <= x /\ - (1 + x) / 32768 < dequantize (sampleToInt16 x) - x <= 0))%Q.
Proof.
  intros Hx. pose proof (clamp_id x Hx) as Hs.
  unfold sampleToInt16, toInt16, dequantize.
  set (s := Qmax (-1) (Qmin 1 x)) in *.
  destruct (Qlt_le_dec s 0) as [Hneg | Hpos].
  - destruct (Qtrunc_neg (s * 32768)) as [Hr Hb]; [lra | lra |].
    rewrite (wrap16_id _ Hr). split; [exact Hr |].
    left. split; [lra |].
    set (c := inject_Z (Qtrunc (s * 32768))) in *.
    unfold Qdiv. change (/ 32768)%Q with (1 # 32768)%Q. lra.
  - destruct (Qtrunc_nonneg (s * 32767)) as [Hr Hb]; [lra | lra |].
    rewrite (wrap16_id _ Hr). split; [exact Hr |].
    right. split; [lra |].
    set (c := inject_Z (Qtrunc (s * 32767))) in *.
    unfold Qdiv. change (/ 32768)%Q with (1 # 32768)%Q. lra.
Qed.

Lemma sampleToInt16_error x :
  (-1 <= x <= 1)%Q ->
  (Qabs (dequantize (sampleToInt16 x) - x) < 2 # 32768)%Q.
Proof.
  intros Hx. destruct (sampleToInt16_spec x Hx) as [_ H].
  apply Qabs_Qlt_condition.
  unfold Qdiv in H. change (/ 32768)%Q with (1 # 32768)%Q in H.
  destruct H as [[H1 H2] | [H1 H2]]; split; lra.
Qed.

End CodecFacts.

(* ----------------------------------------------------------------- *)
(** *** Facts about the playback scheduler and the gate *)

Module AudioManagerFacts.
Import Base64 AudioUtils AudioManager CodecFacts.

Lemma decode_duration_pos c n b :
  decodeAudioData c outputSampleRate n = Returned b -> (0 < duration b)%Q.
Proof.
  unfold decodeAudioData.
  destruct (atob c) as [bin|]; [|discriminate].
  destruct (Nat.odd _); [discriminate|].
  unfold createBuffer.
  set (frames := (_ / n)%nat).
  destruct ((n =? 0)%nat || (frames =? 0)%nat) eqn:E; [discriminate|].
  intros H. injection H as <-.
  apply orb_false_iff in E. destruct E as [_ E].
  apply Nat.eqb_neq in E.
  unfold duration. cbn [length sampleRate].
  apply Qlt_shift_div_l; [reflexivity|].
  rewrite Qmult_0_l.
  change 0%Q with (inject_Z 0). rewrite <- Zlt_Qlt. lia.
Qed.

Lemma schedule_ok now c m b :
  decodeAudioData c outputSampleRate 1 = Returned b ->
  schedule now c m =
  ({| stream := stream m; processor := processor m;
      audioSources := audioSources m ++
        [{| source_id := created m; buffer := b;
            startTime := Qmax now (nextStartTime m) |}];
      nextStartTime := Qmax now (nextStartTime m) + duration b;
      isClosed := isClosed m;
      created := S (created m);
      stopped := stopped m |},
   Some {| source_id := created m; buffer := b;
           startTime := Qmax now (nextStartTime m) |}).
Proof. intros H. unfold schedule. now rewrite H. Qed.

Lemma schedule_dropped now c m e :
  decodeAudioData c outputSampleRate 1 = Thrown e ->
  schedule now c m = (m, None).
Proof. intros H. unfold schedule. now rewrite H. Qed.

(** What one enqueue does to the cursor and which node it schedules. *)
Lemma schedule_cases now c m :
  (exists e, decodeAudioData c outputSampleRate 1 = Thrown e /\
             schedule now c m = (m, None)) \/
  (exists b m' s, decodeAudioData c outputSampleRate 1 = Returned b /\
                  schedule now c m = (m', Some s) /\
                  buffer s = b /\
                  startTime s = Qmax now (nextStartTime m) /\
                  nextStartTime m' = (startTime s + duration b)%Q /\
                  (0 < duration b)%Q).
Proof.
  destruct (decodeAudioData c outputSampleRate 1) as [b|e] eqn:E.
  - right. eexists _, _, _. split; [reflexivity|].
    rewrite (schedule_ok now c m b E).
    repeat split. eapply decode_duration_pos; eassumption.
  - left. exists e. split; [reflexivity|]. now apply schedule_dropped with e.
Qed.

Lemma cursor_step now c m :
  (nextStartTime m <= nextStartTime (playAudioChunk now c m))%Q.
Proof.
  unfold playAudioChunk.
  destruct (schedule_cases now c m)
    as [[e [_ ->]] | [b [m' [s [_ [-> [_ [Hs [Hn Hd]]]]]]]]]; cbn [fst].
  - apply Qle_refl.
  - rewrite Hn, Hs.
    pose proof (Q.le_max_r now (nextStartTime m)). lra.
Qed.

Lemma timeline_lower_bound chunks :
  forall m now s,
    In (now, s) (timeline m chunks) ->
    (nextStartTime m <= startTime s)%Q /\ (now <= startTime s)%Q.
Proof.
  induction chunks as [|[n0 c] rest IH]; intros m now s Hin; [contradiction|].
  cbn [timeline] in Hin.
  pose proof (cursor_step n0 c m) as Hmono. unfold playAudioChunk in Hmono.
  destruct (schedule_cases n0 c m)
    as [[e [_ E]] | [b [m' [s0 [_ [E [_ [Hs [Hn Hd]]]]]]]]];
    rewrite E in Hin, Hmono; cbn [fst] in Hmono.
  - now apply IH.
  - destruct Hin as [Heq | Hin].
    + injection Heq as <- <-. rewrite Hs.
      split; [apply Q.le_max_r | apply Q.le_max_l].
    + destruct (IH _ _ _ Hin) as [H1 H2]. split; [lra | exact H2].
Qed.

Lemma timeline_adjacent chunks :
  forall m i a b,
    nth_error (timeline m chunks) i = Some a ->
    nth_error (timeline m chunks) (S i) = Some b ->
    (startTime (snd a) + duration (buffer (snd a)) <= startTime (snd b))%Q.
Proof.
  induction chunks as [|[n0 c] rest IH]; intros m i a b Ha Hb.
  - destruct i; discriminate.
  - cbn [timeline] in Ha, Hb.
    destruct (schedule_cases n0 c m)
      as [[e [_ E]] | [b0 [m' [s0 [_ [E [Hbuf [Hs [Hn Hd]]]]]]]]];
      rewrite E in Ha, Hb.
    + eapply IH; eassumption.
    + destruct i as [|j].
      * cbn in Ha. injection Ha as <-. cbn [snd].
        cbn [nth_error] in Hb.
        assert (Hin : In b (timeline m' rest)).
        { destruct (timeline m' rest) as [|x l]; [discriminate|].
          injection Hb as <-. now left. }
        destruct b as [nb sb]. apply timeline_lower_bound in Hin.
        cbn [snd]. rewrite Hbuf, <- Hn. apply Hin.
      * cbn [nth_error] in Ha, Hb. eapply IH; eassumption.
Qed.

Lemma cursors_adjacent chunks :
  forall m i x y,
    nth_error (cursors m chunks) i = Some x ->
    nth_error (cursors m chunks) (S i) = Some y ->
    (x <= y)%Q.
Proof.
  induction chunks as [|[n0 c] rest IH]; intros m i x y Hx Hy.
  - destruct i as [|[|i]]; discriminate.
  - cbn [cursors] in Hx, Hy. destruct i as [|j].
    + cbn in Hx. injection Hx as <-.
      cbn [nth_error] in Hy.
      destruct rest as [|[n1 c1] rest']; cbn in Hy; injection Hy as <-;
        apply cursor_step.
    + cbn [nth_error] in Hx, Hy. eapply IH; eassumption.
Qed.

Lemma string_length_units s :
  List.length (list_ascii_of_string s) = String.length s.
Proof. induction s as [|c s IH]; cbn; [reflexivity | now rewrite IH]. Qed.

(** A payload that decodes to an odd number of bytes is refused. *)
Lemma decode_odd c bin n :
  atob c = Some bin -> Nat.odd (String.length bin) = true ->
  decodeAudioData c outputSampleRate n = Thrown RangeError.
Proof.
  intros Hc Hodd. unfold decodeAudioData. rewrite Hc.
  rewrite length_map, string_length_units, Hodd. reflexivity.
Qed.

(** [sqrt v > t] for a non-negative [t], without the root. *)
Lemma sqrt_gt_iff (t v : R) :
  (0 <= t)%R -> ((t < sqrt v)%R <-> (t * t < v)%R).
Proof.
  intros Ht. split; intros H.
  - destruct (Rle_or_lt v 0) as [Hv | Hv].
    + rewrite (sqrt_neg_0 v Hv) in H. Lra.lra.
    + rewrite <- (sqrt_sqrt v) by Lra.lra.
      apply Rmult_le_0_lt_compat; Lra.lra.
  - assert (Hv : (0 <= v)%R) by Lra.nra.
    rewrite <- (sqrt_square t Ht).
    apply sqrt_lt_1_alt. split; [Lra.nra | exact H].
Qed.

Lemma threshold_pos s : (s <= 1)%Q -> (0 < threshold s)%Q.
Proof. intros Hs. unfold threshold. lra. Qed.

(** [rms_exceeds] decides [rms > threshold] for a positive threshold. *)
Lemma rms_exceeds_spec inputData t :
  (0 < t)%Q ->
  rms_exceeds inputData t = true <-> (Q2R t < calculateRMS inputData)%R.
Proof.
  intros Ht. unfold calculateRMS.
  assert (HtR : (0 <= Q2R t)%R).
  { replace 0%R with (Q2R 0) by apply RMicromega.Q2R_0.
    apply Qle_Rle. lra. }
  rewrite (sqrt_gt_iff _ _ HtR), <- Q2R_mult.
  destruct inputData as [|x l].
  - cbn [rms_exceeds]. split; [discriminate|].
    intros H. apply Rlt_Qlt in H.
    assert (E : (mean_square [] == 0)%Q) by reflexivity.
    rewrite E in H. nra.
  - unfold rms_exceeds.
    destruct (Qlt_le_dec t 0) as [Hneg | _]; [lra|].
    destruct (Qlt_le_dec (t * t) (mean_square (x :: l))) as [Hlt | Hge].
    + split; [intros _; now apply Qlt_Rlt | reflexivity].
    + split; [discriminate|]. intros H. apply Rlt_Qlt in H. lra.
Qed.

End AudioManagerFacts.

(* ----------------------------------------------------------------- *)
(** *** Properties of the codec, the gate and the scheduler *)

Module AudioProperties.
Import Base64 Base64Facts AudioUtils AudioManager CodecFacts AudioManagerFacts.

(** C1.  Playback scheduling.  Whatever the state of the scheduler and
    whatever the context times at which chunks are enqueued: a chunk that
    decodes is scheduled at [max(now, nextStartTime)] and the cursor becomes
    that start time plus the chunk's duration, a chunk that does not decode
    changes nothing; consecutive scheduled nodes satisfy
    [start(i+1) >= start(i) + d(i)], so start times never decrease and no
    two chunks overlap; the cursor never decreases along the run; and no
    node starts before the time of its own enqueue. *)
Theorem playback_never_overlaps (m : AudioManager.t) (chunks : list (Q * string)) :
  (forall now c m0,
      match decodeAudioData c outputSampleRate 1 with
      | Returned b =>
          exists m1 s,
            schedule now c m0 = (m1, Some s) /\
            startTime s = Qmax now (nextStartTime m0) /\
            nextStartTime m1 = (startTime s + duration b)%Q /\
            buffer s = b /\ (0 < duration b)%Q
      | Thrown _ => schedule now c m0 = (m0, None)
      end) /\
  (forall i a b,
      nth_error (timeline m chunks) i = Some a ->
      nth_error (timeline m chunks) (S i) = Some b ->
      (startTime (snd a) + duration (buffer (snd a)) <= startTime (snd b))%Q /\
      (startTime (snd a) <= startTime (snd b))%Q) /\
  (forall i x y,
      nth_error (cursors m chunks) i = Some x ->
      nth_error (cursors m chunks) (S i) = Some y ->
      (x <= y)%Q) /\
  (forall now s, In (now, s) (timeline m chunks) -> (now <= startTime s)%Q).
Proof.
  repeat split.
  - intros now c m0.
    destruct (schedule_cases now c m0)
      as [[e [-> E]] | [b [m' [s [-> [E [Hb [Hs [Hn Hd]]]]]]]]].
    + exact E.
    + exists m', s. auto.
  - eapply timeline_adjacent; eassumption.
  - pose proof (timeline_adjacent chunks m i a b H H0) as Hadj.
    assert (Hd : (0 < duration (buffer (snd a)))%Q).
    { apply nth_error_In in H. clear - H. revert m H.
      induction chunks as [|[n0 c] rest IH]; intros m H; [contradiction|].
      cbn [timeline] in H.
      destruct (schedule_cases n0 c m)
        as [[e [_ E]] | [b0 [m' [s0 [_ [E [Hbuf [_ [_ Hd]]]]]]]]];
        rewrite E in H.
      - eapply IH; eassumption.
      - destruct H as [<- | H]; [cbn [snd]; now rewrite Hbuf |].
        eapply IH; eassumption. }
    lra.
  - intros i x y. apply cursors_adjacent.
  - intros now s Hin. now apply timeline_lower_bound in Hin.
Qed.

(** C7.  A payload whose decoded byte length is odd (the stride of a
    one-channel 16-bit frame is two bytes) makes decoding fail with a
    [RangeError]; the enqueue then drops the chunk: no node is created or
    scheduled and the scheduler, its cursor included, is left as it was. *)
Theorem odd_payload_is_dropped
  (m : AudioManager.t) (now : Q) (c bin : string) :
  atob c = Some bin ->
  Nat.odd (String.length bin) = true ->
  decodeAudioData c outputSampleRate 1 = Thrown RangeError /\
  schedule now c m = (m, None) /\
  playAudioChunk now c m = m /\
  nextStartTime (playAudioChunk now c m) = nextStartTime m /\
  created (playAudioChunk now c m) = created m /\
  audioSources (playAudioChunk now c m) = audioSources m.
Proof.
  intros Hc Hodd.
  pose proof (decode_odd c bin 1 Hc Hodd) as Hdec.
  pose proof (schedule_dropped now c m _ Hdec) as Hs.
  unfold playAudioChunk. rewrite Hs. cbn [fst]. repeat split; assumption.
Qed.

Lemma odd_payload_is_dropped_witness :
  decodeAudioData "AA==" outputSampleRate 1 = Thrown RangeError /\
  playAudioChunk 5 "AA==" AudioManager.new = AudioManager.new.
Proof.
  pose proof (odd_payload_is_dropped AudioManager.new 5 "AA=="
                (String Ascii.zero EmptyString) eq_refl eq_refl) as H.
  split; [apply H | apply H].
Defined.

(** C10.  Enqueue after [close()].  [close] empties the live set, resets
    the cursor to zero and raises the closed flag, which only the capture
    callback consults: a chunk that decodes is still given a fresh node,
    scheduled at [max(now, 0)] and added to the live set, and the cursor
    moves from zero to a positive value. *)
Theorem enqueue_after_close_schedules
  (m : AudioManager.t) (now : Q) (c : string) (b : AudioBuffer) :
  decodeAudioData c outputSampleRate 1 = Returned b ->
  let closed := close m in
  let source := {| source_id := created m; buffer := b;
                   startTime := Qmax now 0 |} in
  isClosed closed = true /\
  nextStartTime closed = 0%Q /\
  audioSources closed = [] /\
  schedule now c closed = (playAudioChunk now c closed, Some source) /\
  audioSources (playAudioChunk now c closed) = [source] /\
  created (playAudioChunk now c closed) = S (created closed) /\
  nextStartTime (playAudioChunk now c closed) = (Qmax now 0 + duration b)%Q /\
  (0 < nextStartTime (playAudioChunk now c closed))%Q /\
  isClosed (playAudioChunk now c closed) = true /\
  (forall sensitivity inputData,
      onaudioprocess sensitivity closed inputData = None).
Proof.
  intros Hdec closed source.
  pose proof (schedule_ok now c closed b Hdec) as Hs.
  unfold playAudioChunk. rewrite Hs. cbn [fst].
  repeat split.
  cbn [nextStartTime closed close].
  pose proof (decode_duration_pos c 1 b Hdec).
  pose proof (Q.le_max_r now 0). lra.
Qed.

Lemma enqueue_after_close_schedules_witness :
  let zero := {| numberOfChannels := 1; length := 1;
                 sampleRate := outputSampleRate;
                 channelData := [[0 # 32768]] |} in
  let m := playAudioChunk 0 "AAAAAA==" AudioManager.new in
  decodeAudioData "AAA=" outputSampleRate 1 = Returned zero /\
  audioSources (playAudioChunk 2 "AAA=" (close m)) =
    [{| source_id := 1; buffer := zero; startTime := Qmax 2 0 |}] /\
  (0 < nextStartTime (playAudioChunk 2 "AAA=" (close m)))%Q.
Proof.
  intros zero m.
  assert (E : decodeAudioData "AAA=" outputSampleRate 1 = Returned zero)
    by (vm_compute; reflexivity).
  pose proof (enqueue_after_close_schedules m 2 "AAA=" zero E) as H.
  cbv zeta in H.
  split; [exact E |]. split; [apply H | apply H].
Defined.

(** C5, the bound as stated fails: the sample [65535/65536] is encoded as
    [32766] and played back as [32766/32768], which is [3/65536] away,
    more than one step [1/32768]. *)
Lemma round_trip_one_step_bound_fails :
  let x := [65535 # 65536] in
  exists y,
    decodeAudioData (data (createAudioBlob (float32ToInt16 x) inputSampleRate))
                    outputSampleRate 1
    = Returned {| numberOfChannels := 1; length := 1;
                  sampleRate := outputSampleRate; channelData := [y] |} /\
    Forall (fun v => -1 <= v <= 1)%Q x /\
    ~ (Qabs (nth 0 y 0 - nth 0 x 0) <= 1 # 32768)%Q.
Proof.
  exists [32766 # 32768]. split; [vm_compute; reflexivity |].
  split.
  - constructor; [| constructor]. split; discriminate.
  - cbn [nth]. intros H. vm_compute in H. apply H. reflexivity.
Qed.

(** C5, amended.  For a non-empty sample sequence with values in [-1,1],
    decoding the framed encoding on one channel succeeds and gives a
    sequence of the same length; each decoded sample differs from the
    original by less than two quantization steps, [2/32768], and by less
    than one step when the original is negative. *)
Theorem round_trip_within_two_steps (x : list Q) :
  x <> [] ->
  Forall (fun v => -1 <= v <= 1)%Q x ->
  exists y,
    decodeAudioData (data (createAudioBlob (float32ToInt16 x) inputSampleRate))
                    outputSampleRate 1
    = Returned {| numberOfChannels := 1; length := List.length x;
                  sampleRate := outputSampleRate; channelData := [y] |} /\
    List.length y = List.length x /\
    forall i, (i < List.length x)%nat ->
      (Qabs (nth i y 0 - nth i x 0) < 2 # 32768)%Q /\
      (nth i x 0 < 0 -> Qabs (nth i y 0 - nth i x 0) < 1 # 32768)%Q.
Proof.
  intros Hne Hx.
  exists (map dequantize (float32ToInt16 x)).
  split; [| split].
  - rewrite <- (float32ToInt16_length x).
    apply decode_frame.
    + destruct x; [contradiction | discriminate].
    + apply float32ToInt16_range.
  - now rewrite length_map, float32ToInt16_length.
  - intros i Hi. unfold float32ToInt16. rewrite map_map.
    assert (Hnth : nth i (map (fun v => dequantize (sampleToInt16 v)) x) 0%Q
                   = dequantize (sampleToInt16 (nth i x 0%Q))).
    { rewrite (nth_indep _ 0%Q (dequantize (sampleToInt16 0%Q)))
        by (now rewrite length_map).
      apply (map_nth (fun v => dequantize (sampleToInt16 v))). }
    rewrite Hnth.
    assert (Hin : (-1 <= nth i x 0 <= 1)%Q).
    { rewrite Forall_forall in Hx. apply Hx. now apply nth_In. }
    split; [now apply sampleToInt16_error |].
    intros Hneg.
    destruct (sampleToInt16_spec _ Hin) as [_ [[_ H] | [H _]]]; [| lra].
    apply Qabs_Qlt_condition. split; lra.
Qed.

Lemma round_trip_within_two_steps_witness :
  exists y,
    decodeAudioData
      (data (createAudioBlob (float32ToInt16 [65535 # 65536; -1 # 3])
                             inputSampleRate))
      outputSampleRate 1
    = Returned {| numberOfChannels := 1; length := 2;
                  sampleRate := outputSampleRate; channelData := [y] |} /\
    List.length y = 2%nat.
Proof.
  assert (Hne : [65535 # 65536; -1 # 3] <> []) by discriminate.
  assert (Hx : Forall (fun v => -1 <= v <= 1)%Q [65535 # 65536; -1 # 3]).
  { repeat constructor; discriminate. }
  destruct (round_trip_within_two_steps _ Hne Hx) as [y [H1 [H2 _]]].
  exists y. split; [exact H1 | exact H2].
Defined.




End AudioProperties.

(* ----------------------------------------------------------------- *)
(** *** Rules of the program logic *)

Module AsyncFacts.
Import Tools App Observe.

Lemma quiet_same w w' :
  trace w' = trace w -> clock w' = clock w ->
  audioManagerRef w' = audioManagerRef w -> quiet w w'.
Proof.
  intros Ht Hc Ha. repeat split.
  - exists []. split; [now rewrite app_nil_r | constructor].
  - lia.
  - exact Ha.
Qed.

Lemma quiet_refl w : quiet w w.
Proof. now apply quiet_same. Qed.

Lemma quiet_trans w1 w2 w3 : quiet w1 w2 -> quiet w2 w3 -> quiet w1 w3.
Proof.
  intros [[e1 [T1 F1]] [C1 A1]] [[e2 [T2 F2]] [C2 A2]].
  repeat split.
  - exists (e1 ++ e2). split.
    + now rewrite T2, T1, app_assoc.
    + apply Forall_app. now split.
  - lia.
  - congruence.
Qed.

Lemma quiet_Frame : Frame quiet.
Proof.
  constructor.
  - apply quiet_refl.
  - apply quiet_trans.
  - intros w e He. repeat split; try reflexivity.
    exists [e]. split; [reflexivity | now constructor].
  - intros w ms. repeat split; cbn; [| lia].
    exists []. split; [now rewrite app_nil_r | constructor].
  - intros w n. now apply quiet_same.
  - intros w p. now apply quiet_same.
Qed.

Lemma unconstrained_Frame : Frame unconstrained.
Proof. constructor; unfold unconstrained; auto. Qed.

Section Rules.
Variable R : World -> World -> Prop.
Hypothesis HR : Frame R.
Variable pend : Prop.

Lemma Spec_ret (A : Type) (P : A -> Prop) (a : A) :
  P a -> Spec R P pend (ret a).
Proof. intros Ha w. split; [apply (frame_refl R HR) | exact Ha]. Qed.

Lemma Spec_throw (A : Type) (P : A -> Prop) (e : JsError) :
  Spec R P pend (throw e).
Proof. intros w. split; [apply (frame_refl R HR) | exact I]. Qed.

Lemma Spec_bind (A B : Type) (PA : A -> Prop) (PB : B -> Prop)
      (m : M A) (k : A -> M B) :
  Spec R PA pend m ->
  (forall a, PA a -> Spec R PB pend (k a)) ->
  Spec R PB pend (bind m k).
Proof.
  intros Hm Hk w. unfold bind.
  destruct (Hm w) as [Hstep Hout].
  destruct (m w) as [[a | e |] w1]; cbn [fst snd] in *.
  - destruct (Hk a Hout w1) as [Hstep' Hout'].
    split; [eapply (frame_trans R HR); eassumption | exact Hout'].
  - split; [exact Hstep | exact I].
  - split; [exact Hstep | exact Hout].
Qed.

Lemma Spec_weaken (A : Type) (P P' : A -> Prop) (m : M A) :
  Spec R P pend m -> (forall a, P a -> P' a) -> Spec R P' pend m.
Proof.
  intros Hm HP w. destruct (Hm w) as [Hstep Hout].
  split; [exact Hstep |].
  destruct (fst (m w)); auto.
Qed.

Lemma Spec_gets (A : Type) (f : World -> A) : Spec R any pend (gets f).
Proof. intros w. split; [apply (frame_refl R HR) | exact I]. Qed.

Lemma Spec_lift (A : Type) (r : Result A) : Spec R any pend (lift r).
Proof.
  destruct r; intros w; (split; [apply (frame_refl R HR) | exact I]).
Qed.

Lemma Spec_emit (e : Event) :
  orchestration e = false -> Spec R any pend (emit e).
Proof. intros He w. split; [now apply (frame_emit R HR) | exact I]. Qed.

Lemma Spec_elapse (ms : N) : Spec R any pend (elapse ms).
Proof. intros w. split; [apply (frame_clock R HR) | exact I]. Qed.

Lemma Spec_set_rng (n : nat) : Spec R any pend (modify (set_rng n)).
Proof. intros w. split; [apply (frame_rng R HR) | exact I]. Qed.

Lemma Spec_set_pendingPolls p : Spec R any pend (modify (set_pendingPolls p)).
Proof. intros w. split; [apply (frame_polls R HR) | exact I]. Qed.

Lemma Spec_freshId env : Spec R any pend (freshId env).
Proof.
  unfold freshId.
  eapply Spec_bind; [apply Spec_gets | intros n _].
  eapply Spec_bind; [apply Spec_set_rng | intros ? _].
  now apply Spec_ret.
Qed.

Lemma Spec_timeString env : Spec R any pend (timeString env).
Proof.
  unfold timeString.
  eapply Spec_bind; [apply Spec_gets | intros t _].
  now apply Spec_ret.
Qed.

Lemma Spec_await (A : Type) env (r : Result A) : Spec R any pend (await env r).
Proof.
  unfold await.
  eapply Spec_bind; [apply Spec_elapse | intros ? _]. apply Spec_lift.
Qed.

Lemma Spec_arg args k : Spec R any pend (arg args k).
Proof.
  unfold arg. destruct args; [now apply Spec_ret | apply Spec_throw].
Qed.

End Rules.

(** One step of a proof in the logic: a primitive, or a bind whose first
    part is a primitive. *)
Ltac spec_prim R HR :=
  first [ apply (Spec_gets R HR)
        | apply (Spec_elapse R HR)
        | apply (Spec_set_rng R HR)
        | apply (Spec_set_pendingPolls R HR)
        | apply (Spec_freshId R HR)
        | apply (Spec_timeString R HR)
        | apply (Spec_await R HR)
        | apply (Spec_arg R HR)
        | apply (Spec_lift R HR)
        | apply (Spec_throw R HR)
        | (apply (Spec_emit R HR); reflexivity) ].

Ltac spec_bind R HR :=
  eapply (Spec_bind R HR); [spec_prim R HR | intros ? _].

(** The polling loop stays pending only by exhausting the script. *)
Lemma Spec_pollLoop R (HR : Frame R) env script operation :
  Spec R any True (pollLoop env script operation).
Proof.
  revert operation. induction script as [|answer rest IH]; intros operation.
  - cbn [pollLoop]. destruct (op_done operation);
      [now apply (Spec_ret R HR) |].
    spec_bind R HR.
    intros w. split; [apply (frame_refl R HR) | exact I].
  - cbn [pollLoop]. destruct (op_done operation);
      [now apply (Spec_ret R HR) |].
    do 4 spec_bind R HR.
    apply IH.
Qed.

(** Running a computation on a world: unfold the monad and reduce the
    matches it exposes. *)
Ltac run_async :=
  repeat progress
    (unfold await, freshId, timeString, send, setConnectionState,
            elapse, emit, lift, modify, gets, pending, throw, ret, bind;
     cbn [clock rng pendingPolls trace logs mediaItems connectionState
          isMicActive isAwake audioManagerRef sessionRef
          set_clock set_rng set_pendingPolls set_trace set_logs
          set_mediaItems set_connectionState set_isMicActive set_isAwake
          set_audioManagerRef set_sessionRef fst snd]).

End AsyncFacts.

(* ----------------------------------------------------------------- *)
(** *** Facts about the tool dispatcher *)

Module ToolsFacts.
Import Tools App Observe AsyncFacts.
Local Open Scope string_scope.

Lemma Spec_pend_weaken (A : Type) R (P : A -> Prop) (pend pend' : Prop) m :
  Spec R P pend m -> (pend -> pend') -> Spec R P pend' m.
Proof.
  intros Hm Hp w. destruct (Hm w) as [Hstep Hout].
  split; [exact Hstep |].
  destruct (fst (m w)); auto.
Qed.

Lemma pollLoop_done env script operation :
  op_done operation = true -> pollLoop env script operation = ret operation.
Proof. intros H. destruct script; cbn [pollLoop]; now rewrite H. Qed.

Ltac spec_auto R HR Hcb :=
  repeat first
    [ spec_bind R HR
    | (eapply (Spec_bind R HR); [apply Hcb | intros ? _])
    | (apply (Spec_ret R HR); eexists; reflexivity)
    | apply (Spec_throw R HR)
    | match goal with
      | |- Spec _ _ _ (match ?x with _ => _ end) => destruct x
      | |- Spec _ _ _ (if ?b then _ else _) => destruct b
      end ].

(** Every value the [switch] settles with is a [{result: ...}] object; its
    steps respect any frame its callback respects; only the video
    capability, or the callback, can leave it pending. *)
Lemma Spec_executeTool_switch R (HR : Frame R) (pend : Prop)
      env name args apiKey onMediaGenerated activeFile :
  (forall item, Spec R any pend (onMediaGenerated item)) ->
  Spec R is_result (name = "generate_video" \/ pend)
       (executeTool_switch env name args apiKey onMediaGenerated activeFile).
Proof.
  intros Hcb0.
  assert (Hcb : forall item,
             Spec R any (name = "generate_video" \/ pend) (onMediaGenerated item)).
  { intros item. eapply Spec_pend_weaken; [apply Hcb0 | auto]. }
  unfold executeTool_switch.
  destruct (String.eqb name "open_website"); [spec_auto R HR Hcb |].
  destruct (String.eqb name "get_current_time"); [spec_auto R HR Hcb |].
  destruct (String.eqb name "read_active_file"); [spec_auto R HR Hcb |].
  destruct (String.eqb name "consult_logic_core"); [spec_auto R HR Hcb |].
  destruct (String.eqb name "search_web"); [spec_auto R HR Hcb |].
  destruct (String.eqb name "find_places"); [spec_auto R HR Hcb |].
  destruct (String.eqb name "generate_image"); [spec_auto R HR Hcb |].
  destruct (String.eqb name "generate_video") eqn:E; [| spec_auto R HR Hcb].
  apply String.eqb_eq in E.
  do 4 spec_bind R HR.
  eapply (Spec_bind R HR).
  { eapply Spec_pend_weaken; [apply (Spec_pollLoop R HR) | auto]. }
  intros operation _.
  spec_auto R HR Hcb.
Qed.

(** [executeTool] adds that no error escapes. *)
Lemma Spec_executeTool R (HR : Frame R) (pend : Prop)
      env name args apiKey onMediaGenerated activeFile :
  (forall item, Spec R any pend (onMediaGenerated item)) ->
  forall w,
    R w (snd (executeTool env name args apiKey onMediaGenerated activeFile w)) /\
    match fst (executeTool env name args apiKey onMediaGenerated activeFile w) with
    | Settled o => is_result o
    | Rejected _ => False
    | Pending => name = "generate_video" \/ pend
    end.
Proof.
  intros Hcb w.
  destruct (Spec_executeTool_switch R HR pend env name args apiKey
              onMediaGenerated activeFile Hcb w) as [Hstep Hout].
  unfold executeTool, try_catch.
  destruct (executeTool_switch env name args apiKey onMediaGenerated activeFile w)
    as [[o | e |] w1]; cbn [fst snd] in *.
  - split; assumption.
  - split; [exact Hstep | eexists; reflexivity].
  - split; assumption.
Qed.

(** The callback of the orchestrator only adds a media item and a log
    line. *)
Lemma Spec_handleMediaGenerated env item :
  Spec quiet any False (handleMediaGenerated env item).
Proof.
  intros w. split; [| exact I]. now apply quiet_same.
Qed.

End ToolsFacts.

(* ----------------------------------------------------------------- *)
(** *** Properties of the tool dispatcher *)

Module ToolProperties.
Import Tools App Observe AsyncFacts ToolsFacts Samples.
Local Open Scope string_scope.

Lemma skipn_length_app (A : Type) (l r : list A) :
  skipn (List.length l) (l ++ r)%list = r.
Proof. induction l as [|x l IH]; [reflexivity | exact IH]. Qed.

Lemma Spec_unconstrained (A : Type) (m : M A) : Spec unconstrained any True m.
Proof.
  intros w. split; [exact I |]. destruct (fst (m w)); exact I.
Qed.



(** Status checks among a list of events. *)
Lemma count_status_checks_app (l r : list Event) :
  count_status_checks (l ++ r) = (count_status_checks l + count_status_checks r)%nat.
Proof.
  unfold count_status_checks. now rewrite filter_app, length_app.
Qed.

(** C9.  Video generation polled to completion.  The request returns an
    operation that is not done and the service then answers not done, not
    done, done, the finished operation carrying a video address whose
    download succeeds.  Then the capability settles with its success
    result; after the request it makes exactly three status checks, one
    per answer, and consumes exactly those three answers; it emits exactly
    one media item, of type video, holding the downloaded object; and three
    polling intervals have elapsed besides the five round trips. *)
Theorem video_three_status_checks_one_item
  (env : Env) (o : JsObj) (apiKey : string) (activeFile : option ActiveFile)
  (w : World) (op0 nd1 nd2 fin : Operation) (uri url : string)
  (rest : list (Result Operation)) :
  generateVideos env (prop o "prompt") = Returned op0 ->
  op_done op0 = false ->
  pendingPolls w = Returned nd1 :: Returned nd2 :: Returned fin :: rest ->
  op_done nd1 = false -> op_done nd2 = false -> op_done fin = true ->
  op_videoUri fin = JStr uri -> uri <> "" ->
  fetchObjectUrl env (uri ++ "&key=" ++ apiKey) = Returned url ->
  exists w',
    executeTool env "generate_video" (Some o) apiKey
                (handleMediaGenerated env) activeFile w
    = (Settled [("result", JStr "Video generated and ready to play.")], w') /\
    trace w' = (trace w ++
                 [EvGenerateVideos (prop o "prompt");
                  EvGetVideosOperation; EvGetVideosOperation;
                  EvGetVideosOperation;
                  EvFetch (uri ++ "&key=" ++ apiKey)])%list /\
    count_status_checks (skipn (List.length (trace w)) (trace w')) = 3%nat /\
    pendingPolls w' = rest /\
    (exists item,
        mediaItems w' = (mediaItems w ++ [item])%list /\
        media_type item = MediaType.video /\
        media_url item = JStr url /\
        media_title item = prop o "prompt") /\
    clock w' = (clock w + 3 * pollInterval + 5 * roundTrip env)%N.
Proof.
  intros Hgen Hd0 Hpolls Hd1 Hd2 Hd3 Huri Hne Hfetch.
  apply String.eqb_neq in Hne.
  destruct w as [clk rn polls tr lg media st mic awake am sess].
  cbn [pendingPolls] in Hpolls. subst polls.
  eexists. split.
  - unfold executeTool, try_catch, executeTool_switch.
    cbn [String.eqb Ascii.eqb Bool.eqb].
    unfold arg. run_async. rewrite Hgen. run_async.
    cbn [pollLoop]. rewrite Hd0. run_async.
    cbn [pollLoop]. rewrite Hd1. run_async.
    cbn [pollLoop]. rewrite Hd2. run_async.
    rewrite (pollLoop_done env rest fin Hd3). run_async.
    rewrite Huri. cbn [truthy interpolate]. rewrite Hne. cbn [negb].
    run_async. rewrite Hfetch. run_async.
    unfold handleMediaGenerated, addLog. run_async.
    reflexivity.
  - cbn [trace pendingPolls mediaItems clock set_trace set_clock set_rng
         set_pendingPolls set_logs set_mediaItems].
    rewrite <- ?app_assoc. cbn [app].
    split; [reflexivity |].
    rewrite skipn_length_app.
    split; [reflexivity |].
    split; [reflexivity |].
    split; [eexists; repeat split |].
    unfold pollInterval. lia.
Qed.

Lemma video_three_status_checks_one_item_witness :
  exists w',
    executeTool (services true) "generate_video"
                (Some [("prompt", JStr "a sunrise")]) "key"
                (handleMediaGenerated (services true)) None
                (world [Returned running; Returned running; Returned finished])
    = (Settled [("result", JStr "Video generated and ready to play.")], w') /\
    count_status_checks (trace w') = 3%nat /\
    map media_type (mediaItems w') = [MediaType.video].
Proof.
  destruct (video_three_status_checks_one_item
              (services true) [("prompt", JStr "a sunrise")] "key" None
              (world [Returned running; Returned running; Returned finished])
              running running running finished
              "https://videos.example/v1?alt=media" "blob:video" []
              eq_refl eq_refl eq_refl eq_refl eq_refl eq_refl eq_refl
              ltac:(discriminate) eq_refl)
    as [w' [H1 [H2 [H3 [_ [[item [H5 [H6 _]]] _]]]]]].
  exists w'. split; [exact H1 |]. split.
  - exact H3.
  - rewrite H5. cbn. now rewrite H6.
Defined.

End ToolProperties.

(* ----------------------------------------------------------------- *)
(** *** Properties of the orchestrator *)

Module AppProperties.
Import Tools App Observe AsyncFacts ToolsFacts ToolProperties Samples.
Local Open Scope string_scope.

Lemma filter_quiet (evs : list Event) :
  Forall (fun e => orchestration e = false) evs ->
  filter orchestration evs = [].
Proof.
  induction 1 as [|e evs He _ IH]; [reflexivity |].
  cbn. now rewrite He.
Qed.

(** One iteration of the loop: it never rejects; when it settles it has
    dispatched the call at the time it started and answered it, under the
    same identifier and name, at the time it ends; it stays pending only
    on the video capability, the call dispatched and not answered. *)
Lemma handleCall_spec env apiKey activeFile fc w :
  audioManagerRef (snd (handleCall env apiKey activeFile fc w))
  = audioManagerRef w /\
  (clock w <= clock (snd (handleCall env apiKey activeFile fc w)))%N /\
  exists evs,
    trace (snd (handleCall env apiKey activeFile fc w)) = (trace w ++ evs)%list /\
    match fst (handleCall env apiKey activeFile fc w) with
    | Settled _ =>
        exists response,
          filter orchestration evs =
          [EvExecuteTool (clock w) (fc_id fc) (fc_name fc);
           EvSend (clock (snd (handleCall env apiKey activeFile fc w)))
                  (ToolResponse (fc_id fc) (fc_name fc) response)]
    | Rejected _ => False
    | Pending =>
        fc_name fc = "generate_video" /\
        filter orchestration evs =
        [EvExecuteTool (clock w) (fc_id fc) (fc_name fc)]
    end.
Proof.
  unfold handleCall, addLog, try_catch. run_async.
  set (w2 := set_trace _ _).
  pose proof (Spec_executeTool quiet quiet_Frame False env (fc_name fc)
                (fc_args fc) apiKey (handleMediaGenerated env) activeFile
                (Spec_handleMediaGenerated env) w2) as [Hq Hout].
  destruct (executeTool env (fc_name fc) (fc_args fc) apiKey
                        (handleMediaGenerated env) activeFile w2)
    as [[o | e |] w3]; cbn [fst snd] in *; [| contradiction |].
  - destruct Hq as [[evs [Ht Hf]] [Hc Ha]].
    subst w2. cbn [trace clock audioManagerRef set_trace set_logs set_rng] in *.
    split; [exact Ha |]. split; [exact Hc |].
    eexists. split.
    + rewrite Ht, <- !app_assoc. reflexivity.
    + exists o. cbn [app filter orchestration].
      rewrite filter_app, (filter_quiet evs Hf). reflexivity.
  - destruct Hq as [[evs [Ht Hf]] [Hc Ha]].
    subst w2. cbn [trace clock audioManagerRef set_trace set_logs set_rng] in *.
    split; [exact Ha |]. split; [exact Hc |].
    eexists. split.
    + rewrite Ht, <- !app_assoc. reflexivity.
    + split; [destruct Hout as [H | []]; exact H |].
      cbn [app filter orchestration].
      now rewrite (filter_quiet evs Hf).
Qed.

(** The loop over the calls of a message. *)
Lemma forEachCall_spec env apiKey activeFile calls :
  forall w,
    audioManagerRef (snd (forEachCall env apiKey activeFile calls w))
    = audioManagerRef w /\
    (clock w <= clock (snd (forEachCall env apiKey activeFile calls w)))%N /\
    exists evs,
      trace (snd (forEachCall env apiKey activeFile calls w))
      = (trace w ++ evs)%list /\
      match fst (forEachCall env apiKey activeFile calls w) with
      | Settled _ =>
          sequential (clock w) calls (filter orchestration evs)
                     (clock (snd (forEachCall env apiKey activeFile calls w)))
      | Rejected _ => False
      | Pending => exists fc, In fc calls /\ fc_name fc = "generate_video"
      end.
Proof.
  induction calls as [|fc rest IH]; intros w.
  - cbn. split; [reflexivity |]. split; [lia |].
    exists []. split; [now rewrite app_nil_r | constructor].
  - cbn [forEachCall]. unfold bind.
    destruct (handleCall_spec env apiKey activeFile fc w)
      as [Ha [Hc [evs [Ht Hout]]]].
    destruct (handleCall env apiKey activeFile fc w) as [[[] | e |] w1];
      cbn [fst snd] in *; [| contradiction |].
    + destruct (IH w1) as [Ha' [Hc' [evs' [Ht' Hout']]]].
      split; [congruence |]. split; [lia |].
      exists (evs ++ evs')%list. split; [now rewrite Ht', Ht, app_assoc |].
      destruct (fst (forEachCall env apiKey activeFile rest w1)).
      * destruct Hout as [response Hf].
        rewrite filter_app, Hf. cbn [app].
        econstructor; eassumption.
      * contradiction.
      * destruct Hout' as [fc' [Hin Hname]].
        exists fc'. split; [now right | exact Hname].
    + split; [exact Ha |]. split; [exact Hc |].
      exists evs. split; [exact Ht |].
      exists fc. split; [now left | apply Hout].
Qed.

(** The audio and text branches always settle, at once, and touch only
    the audio manager and the log. *)
Lemma audio_text_spec env message w :
  exists w',
    (handleAudio env message ;; handleText env message)%async w
    = (Settled tt, w') /\
    trace w' = trace w /\ clock w' = clock w /\
    audioManagerRef w' =
      (if truthy (firstInlineData message)
       then option_map (AudioManager.playAudioChunk
                          (currentTime env (clock w))
                          (interpolate (firstInlineData message)))
                       (audioManagerRef w)
       else audioManagerRef w) /\
    logs w' =
      (if truthy (firstText message)
       then logs w ++ [mkLog (randomId env (rng w))
                             (toLocaleTimeString env (clock w))
                             JARVIS (interpolate (firstText message))
                             LogType.info]
       else logs w)%list.
Proof.
  unfold handleAudio, handleText, playOnManager, addLog.
  destruct (truthy (firstInlineData message)),
           (truthy (firstText message));
    run_async; destruct (audioManagerRef w) eqn:E; run_async;
    eexists; (split; [reflexivity |]);
    cbn [trace clock audioManagerRef logs rng set_audioManagerRef set_logs
         set_rng option_map];
    repeat split; auto.
Qed.

Lemma onmessage_unfold env apiKey activeFile message w :
  onmessage env apiKey activeFile message w =
  match handleToolCalls env apiKey activeFile message w with
  | (Settled _, w1) =>
      (handleAudio env message ;; handleText env message)%async w1
  | (Rejected e, w1) => (Rejected e, w1)
  | (Pending, w1) => (Pending, w1)
  end.
Proof. reflexivity. Qed.

(** In a sequential run each call is answered exactly once, in message
    order, under its own identifier and name. *)
Lemma sequential_answers t0 calls evs t1 :
  sequential t0 calls evs t1 ->
  answers evs = map (fun fc => (fc_id fc, fc_name fc)) calls /\
  List.length (dispatches evs) = List.length calls.
Proof.
  induction 1 as [t | t0 t1 t2 fc rest response evs Hle _ [IH1 IH2]].
  - split; reflexivity.
  - unfold answers, dispatches in *. cbn [flat_map app List.length map].
    rewrite IH1, IH2. split; reflexivity.
Qed.

Lemma answers_filter evs : answers (filter orchestration evs) = answers evs.
Proof.
  unfold answers.
  induction evs as [|e evs IH]; [reflexivity |].
  destruct e as [| | | | | | | | | | t msg];
    cbn [filter orchestration flat_map app]; rewrite ?IH; try reflexivity.
  destruct msg; cbn [filter orchestration flat_map app]; now rewrite ?IH.
Qed.








End AppProperties.

(* ================================================================= *)
(** ** Further properties of the codec *)

Module CodecExtras.
Import Base64 Base64Facts AudioUtils CodecFacts.

Lemma string_of_units_length (l : list ascii) :
  String.length (string_of_list_ascii l) = List.length l.
Proof. induction l as [|c l IH]; cbn; [reflexivity | now rewrite IH]. Qed.

Lemma units_of_string_length (s : string) :
  List.length (list_ascii_of_string s) = String.length s.
Proof. induction s as [|c s IH]; cbn; [reflexivity | now rewrite IH]. Qed.

Lemma btoa_units_length (bs : list Z) :
  List.length (btoa_units bs) = (4 * ((List.length bs + 2) / 3))%nat.
Proof.
  induction bs as [| a | a b | a b c l IH] using list_ind3;
    try reflexivity.
  cbn [btoa_units List.length]. rewrite IH.
  replace (S (S (S (List.length l))) + 2)%nat
    with ((List.length l + 2) + 1 * 3)%nat by lia.
  rewrite Nat.div_add by discriminate. lia.
Qed.

Lemma int16_of_bytes (lo hi : Z) :
  is_byte lo -> is_byte hi ->
  is_int16 (let u := lo + 256 * hi in if u <? 32768 then u else u - 65536).
Proof.
  unfold is_byte, is_int16. intros Hlo Hhi. cbv zeta.
  destruct (lo + 256 * hi <? 32768) eqn:E;
    [apply Z.ltb_lt in E | apply Z.ltb_ge in E]; lia.
Qed.

Lemma int16_view_range (bytes : list Z) :
  Forall is_byte bytes -> Forall is_int16 (int16_view bytes).
Proof.
  assert (H : forall l,
             Forall is_byte l ->
             Forall is_int16 (int16_view l) /\
             forall a, is_byte a -> Forall is_int16 (int16_view (a :: l))).
  { induction l as [|b l IH]; intros Hl.
    - split; [constructor | intros; constructor].
    - inversion_clear Hl as [|? ? Hb Hl'].
      destruct (IH Hl') as [IH1 IH2].
      split; [now apply IH2 |].
      intros a Ha. cbn [int16_view].
      constructor; [now apply int16_of_bytes | exact IH1]. }
  intros Hb. now apply H.
Qed.

Lemma int16_view_length (bytes : list Z) :
  List.length (int16_view bytes) = (List.length bytes / 2)%nat.
Proof.
  assert (H : forall l,
             List.length (int16_view l) = (List.length l / 2)%nat /\
             forall a, List.length (int16_view (a :: l))
                       = (S (List.length l) / 2)%nat).
  { induction l as [|b l [IH1 IH2]].
    - split; [reflexivity | intros; reflexivity].
    - split; [apply IH2 |].
      intros a. cbn [int16_view List.length]. rewrite IH1.
      replace (S (S (List.length l))) with (List.length l + 1 * 2)%nat by lia.
      rewrite Nat.div_add by discriminate. lia. }
  apply H.
Qed.

Lemma dequantize_range (q : Z) :
  is_int16 q -> (-1 <= dequantize q <= 32767 # 32768)%Q.
Proof.
  unfold is_int16, dequantize. intros [Hlo Hhi].
  assert (H1 : (inject_Z (-32768) <= inject_Z q)%Q) by (rewrite <- Zle_Qle; lia).
  assert (H2 : (inject_Z q <= inject_Z 32767)%Q) by (rewrite <- Zle_Qle; lia).
  change (inject_Z (-32768)) with (-32768)%Q in H1.
  change (inject_Z 32767) with 32767%Q in H2.
  unfold Qdiv. change (/ 32768)%Q with (1 # 32768)%Q.
  set (v := inject_Z q) in *. split; lra.
Qed.



(** X2.  Two 16-bit buffers with the same payload are the same buffer, and
    the payload of a buffer of [n] samples has [4 * ceil(2n/3)]
    characters; at the default rate the descriptor is
    ["audio/pcm;rate=16000"]. *)
Theorem payload_is_injective_and_sized (qs qs' : list Z) (rate rate' : Z) :
  Forall is_int16 qs -> Forall is_int16 qs' ->
  (data (createAudioBlob qs rate) = data (createAudioBlob qs' rate') ->
   qs = qs') /\
  String.length (data (createAudioBlob qs rate))
  = (4 * ((2 * List.length qs + 2) / 3))%nat /\
  mimeType (createAudioBlob qs inputSampleRate) = "audio/pcm;rate=16000"%string.
Proof.
  intros Hqs Hqs'. split; [| split].
  - unfold createAudioBlob. cbn [data]. intros H.
    apply (f_equal atob) in H. rewrite !atob_btoa in H.
    injection H as H.
    apply (f_equal list_ascii_of_string) in H.
    rewrite !list_ascii_of_string_of_list_ascii in H.
    apply (f_equal (map charCode)) in H.
    rewrite !charCode_fromCharCode_map in H by apply uint8_view_bytes.
    apply (f_equal int16_view) in H.
    now rewrite !int16_view_uint8_view in H.
  - unfold createAudioBlob, btoa. cbn [data].
    rewrite string_of_units_length, btoa_units_length.
    rewrite list_ascii_of_string_of_list_ascii, !length_map, uint8_view_length.
    reflexivity.
  - reflexivity.
Qed.

Lemma payload_is_injective_and_sized_witness :
  String.length (data (createAudioBlob [1; 2; 3; 4] 16000)) = 12%nat.
Proof.
  assert (H : Forall is_int16 [1; 2; 3; 4])
    by (repeat constructor; unfold is_int16; lia).
  exact (proj1 (proj2 (payload_is_injective_and_sized
                         [1; 2; 3; 4] [1; 2; 3; 4] 16000 16000 H H))).
Defined.

Lemma clamp_range (x : Q) :
  (-1 <= Qmax (-1) (Qmin 1 x) <= 1)%Q.
Proof.
  split.
  - apply Q.le_max_l.
  - apply Q.max_lub; [discriminate | apply Q.le_min_l].
Qed.

Lemma clamp_monotone (x y : Q) :
  (x <= y)%Q -> (Qmax (-1) (Qmin 1 x) <= Qmax (-1) (Qmin 1 y))%Q.
Proof.
  intros H. apply Q.max_le_compat_l. now apply Q.min_le_compat_l.
Qed.

(** The scaled value of a clamped sample and its truncation. *)
Lemma scaled_neg (s : Q) :
  (-1 <= s)%Q -> (s < 0)%Q ->
  Qtrunc (s * 32768) = Qceiling (s * 32768) /\
  is_int16 (Qceiling (s * 32768)) /\ (Qceiling (s * 32768) <= 0)%Z.
Proof.
  intros Hlo Hneg.
  destruct (Qtrunc_neg (s * 32768)) as [Hr _]; [lra | lra |].
  unfold Qtrunc in *.
  destruct (Qlt_le_dec (s * 32768) 0) as [_ | Hge]; [| lra].
  split; [reflexivity |]. split; [exact Hr |].
  replace 0%Z with (Qceiling 0) by reflexivity.
  apply Qceiling_resp_le. lra.
Qed.

Lemma scaled_nonneg (s : Q) :
  (0 <= s)%Q -> (s <= 1)%Q ->
  Qtrunc (s * 32767) = Qfloor (s * 32767) /\
  is_int16 (Qfloor (s * 32767)) /\ (0 <= Qfloor (s * 32767))%Z.
Proof.
  intros Hlo Hhi.
  destruct (Qtrunc_nonneg (s * 32767)) as [Hr _]; [lra | lra |].
  unfold Qtrunc in *.
  destruct (Qlt_le_dec (s * 32767) 0) as [Hneg | _]; [lra |].
  split; [reflexivity |]. split; [exact Hr |].
  replace 0%Z with (Qfloor 0) by reflexivity.
  apply Qfloor_resp_le. lra.
Qed.

(** X3.  [float32ToInt16] on arbitrary samples: the output has the length
    of the input and every element is a 16-bit value; a sample at or above
    one gives 32767 and a sample at or below minus one gives -32768, so
    nothing wraps around; zero gives zero; and the conversion is monotone:
    a larger sample never gives a smaller integer. *)
Theorem float32ToInt16_saturates_and_is_monotone :
  (forall xs, List.length (float32ToInt16 xs) = List.length xs /\
              Forall is_int16 (float32ToInt16 xs)) /\
  (forall x, (1 <= x)%Q -> sampleToInt16 x = 32767) /\
  (forall x, (x <= -1)%Q -> sampleToInt16 x = -32768) /\
  sampleToInt16 0 = 0 /\
  (forall x y, (x <= y)%Q -> sampleToInt16 x <= sampleToInt16 y).
Proof.
  split; [| split; [| split; [| split]]].
  - intros xs. split; [apply float32ToInt16_length | apply float32ToInt16_range].
  - intros x Hx. unfold sampleToInt16, toInt16.
    assert (Hs : (Qmax (-1) (Qmin 1 x) == 1)%Q).
    { rewrite (Q.min_l 1 x Hx). reflexivity. }
    set (s := Qmax (-1) (Qmin 1 x)) in *.
    destruct (Qlt_le_dec s 0) as [Hneg | Hpos]; [lra |].
    destruct (scaled_nonneg s) as [-> _]; [lra | lra |].
    assert (E : (s * 32767 == inject_Z 32767)%Q) by (rewrite Hs; reflexivity).
    rewrite (Qfloor_comp _ _ E), Qfloor_Z. reflexivity.
  - intros x Hx. unfold sampleToInt16, toInt16.
    assert (Hs : (Qmax (-1) (Qmin 1 x) == -1)%Q).
    { apply Q.max_l. apply Qle_trans with x; [apply Q.le_min_r | exact Hx]. }
    set (s := Qmax (-1) (Qmin 1 x)) in *.
    destruct (Qlt_le_dec s 0) as [Hneg | Hpos]; [| lra].
    destruct (scaled_neg s) as [-> _]; [lra | lra |].
    assert (E : (s * 32768 == inject_Z (-32768))%Q) by (rewrite Hs; reflexivity).
    rewrite (Qceiling_comp _ _ E), Qceiling_Z. reflexivity.
  - reflexivity.
  - intros x y Hxy. unfold sampleToInt16, toInt16.
    pose proof (clamp_range x) as [Hx1 Hx2].
    pose proof (clamp_range y) as [Hy1 Hy2].
    pose proof (clamp_monotone x y Hxy) as Hmono.
    set (s := Qmax (-1) (Qmin 1 x)) in *.
    set (t := Qmax (-1) (Qmin 1 y)) in *.
    destruct (Qlt_le_dec s 0) as [Hs | Hs], (Qlt_le_dec t 0) as [Ht | Ht].
    + destruct (scaled_neg s Hx1 Hs) as [-> [Hrs _]].
      destruct (scaled_neg t Hy1 Ht) as [-> [Hrt _]].
      rewrite !wrap16_id by assumption.
      apply Qceiling_resp_le. lra.
    + destruct (scaled_neg s Hx1 Hs) as [-> [Hrs Hs0]].
      destruct (scaled_nonneg t Ht Hy2) as [-> [Hrt Ht0]].
      rewrite !wrap16_id by assumption. lia.
    + lra.
    + destruct (scaled_nonneg s Hs Hx2) as [-> [Hrs _]].
      destruct (scaled_nonneg t Ht Hy2) as [-> [Hrt _]].
      rewrite !wrap16_id by assumption.
      apply Qfloor_resp_le. lra.
Qed.

(** X4.  Whatever the payload, the rate and the channel count, a buffer
    that [decodeAudioData] returns is well formed: it has the requested
    channels, at least one frame, one array of that many samples per
    channel, and every sample lies between -1 and 32767/32768. *)
Theorem decoded_buffer_is_well_formed
  (c : string) (rate : Z) (numChannels : nat) (b : AudioBuffer) :
  decodeAudioData c rate numChannels = Returned b ->
  numberOfChannels b = numChannels /\
  sampleRate b = rate /\
  (0 < length b)%nat /\
  List.length (channelData b) = numChannels /\
  Forall (fun channel =>
            List.length channel = length b /\
            Forall (fun v => -1 <= v <= 32767 # 32768)%Q channel)
         (channelData b).
Proof.
  unfold decodeAudioData.
  destruct (atob c) as [bin |]; [| discriminate].
  destruct (Nat.odd _); [discriminate |].
  set (ints := int16_view _).
  assert (Hints : Forall is_int16 ints).
  { apply int16_view_range, map_charCode_bytes. }
  unfold createBuffer.
  set (frames := (_ / numChannels)%nat).
  destruct ((numChannels =? 0)%nat || (frames =? 0)%nat) eqn:E; [discriminate |].
  apply orb_false_iff in E. destruct E as [_ E]. apply Nat.eqb_neq in E.
  intros H. injection H as <-.
  cbn [numberOfChannels sampleRate length channelData].
  split; [reflexivity |]. split; [reflexivity |]. split; [lia |].
  split; [now rewrite length_map, length_seq |].
  apply Forall_forall. intros channel Hin.
  apply in_map_iff in Hin. destruct Hin as [ch [<- _]].
  split; [now rewrite length_map, length_seq |].
  apply Forall_forall. intros v Hv.
  apply in_map_iff in Hv. destruct Hv as [i [<- _]].
  apply dequantize_range.
  destruct (nth_in_or_default (i * numChannels + ch) ints 0) as [Hin | ->].
  - rewrite Forall_forall in Hints. now apply Hints.
  - unfold is_int16. lia.
Qed.

Lemma decoded_buffer_is_well_formed_witness :
  List.length (channelData
                 {| numberOfChannels := 2; length := 1; sampleRate := 24000;
                    channelData := [[0 # 32768]; [0 # 32768]] |}) = 2%nat.
Proof.
  assert (E : decodeAudioData "AAAAAAAA" 24000 2 =
              Returned {| numberOfChannels := 2; length := 1;
                          sampleRate := 24000;
                          channelData := [[0 # 32768]; [0 # 32768]] |})
    by (vm_compute; reflexivity).
  exact (proj1 (proj2 (proj2 (proj2
           (decoded_buffer_is_well_formed "AAAAAAAA" 24000 2 _ E))))).
Defined.

End CodecExtras.

(* ================================================================= *)
(** ** Further properties of the scheduler and the gate *)

Module AudioExtras.
Import Base64 Base64Facts AudioUtils AudioManager AudioRuns.
Import CodecFacts AudioManagerFacts CodecExtras.

Lemma timeline_head chunks :
  forall m now s rest,
    timeline m chunks = (now, s) :: rest ->
    startTime s = Qmax now (nextStartTime m).
Proof.
  induction chunks as [|[n0 c] tl IH]; intros m now s rest H; [discriminate |].
  cbn [timeline] in H.
  destruct (schedule_cases n0 c m)
    as [[e [_ E]] | [b [m' [s0 [_ [E [_ [Hs _]]]]]]]]; rewrite E in H.
  - eapply IH; eassumption.
  - injection H as <- <- _. exact Hs.
Qed.

Lemma timeline_adjacent_exact chunks :
  forall m i a b,
    nth_error (timeline m chunks) i = Some a ->
    nth_error (timeline m chunks) (S i) = Some b ->
    startTime (snd b) = Qmax (fst b) (endTime (snd a)).
Proof.
  induction chunks as [|[n0 c] rest IH]; intros m i a b Ha Hb.
  - destruct i; discriminate.
  - cbn [timeline] in Ha, Hb.
    destruct (schedule_cases n0 c m)
      as [[e [_ E]] | [b0 [m' [s0 [_ [E [Hbuf [Hs [Hn Hd]]]]]]]]];
      rewrite E in Ha, Hb.
    + eapply IH; eassumption.
    + destruct i as [|j].
      * cbn in Ha. injection Ha as <-. cbn [snd nth_error] in *.
        destruct (timeline m' rest) as [|[nb sb] l] eqn:T; [discriminate |].
        injection Hb as <-. cbn [fst snd].
        rewrite (timeline_head rest m' nb sb l T).
        unfold endTime. now rewrite Hbuf, Hn.
      * cbn [nth_error] in Ha, Hb. eapply IH; eassumption.
Qed.

(** X5.  Gap-free playback.  For two chunks scheduled one after the other
    in a run of enqueues, the later one starts at the larger of its own
    enqueue time and the end of the earlier one: exactly at that end when
    it was enqueued in time, with no gap, and at its enqueue time when it
    came late. *)
Theorem playback_is_gapless_when_fed_in_time
  (m : AudioManager.t) (chunks : list (Q * string)) (i : nat)
  (a b : Q * AudioBufferSourceNode) :
  nth_error (timeline m chunks) i = Some a ->
  nth_error (timeline m chunks) (S i) = Some b ->
  startTime (snd b) = Qmax (fst b) (endTime (snd a)) /\
  ((fst b <= endTime (snd a))%Q -> (startTime (snd b) == endTime (snd a))%Q) /\
  ((endTime (snd a) <= fst b)%Q -> (startTime (snd b) == fst b)%Q).
Proof.
  intros Ha Hb.
  pose proof (timeline_adjacent_exact chunks m i a b Ha Hb) as H.
  split; [exact H |]. rewrite H. split; intros Hle.
  - now apply Q.max_r.
  - now apply Q.max_l.
Qed.

Lemma playback_is_gapless_when_fed_in_time_witness :
  exists a b,
    nth_error (timeline AudioManager.new [(0%Q, "AAAAAA=="%string); ((1 # 100000)%Q, "AAA="%string)])
              0 = Some a /\
    nth_error (timeline AudioManager.new [(0%Q, "AAAAAA=="%string); ((1 # 100000)%Q, "AAA="%string)])
              1 = Some b /\
    startTime (snd b) = Qmax (fst b) (endTime (snd a)).
Proof.
  destruct (nth_error (timeline AudioManager.new
                         [(0%Q, "AAAAAA=="%string); ((1 # 100000)%Q, "AAA="%string)]) 0)
    as [a |] eqn:Ea; [| discriminate Ea].
  destruct (nth_error (timeline AudioManager.new
                         [(0%Q, "AAAAAA=="%string); ((1 # 100000)%Q, "AAA="%string)]) 1)
    as [b |] eqn:Eb; [| discriminate Eb].
  exists a, b. split; [reflexivity |]. split; [reflexivity |].
  exact (proj1 (playback_is_gapless_when_fed_in_time
                  AudioManager.new _ 0 a b Ea Eb)).
Defined.

(** X6.  The cursor advances by the playing time of the bytes: a payload
    that decodes to an even, non-zero number [n] of bytes is scheduled and
    moves the cursor to [max(now, cursor) + n / 48000] seconds (two bytes
    per sample at 24 kHz). *)
Theorem cursor_advances_by_byte_count
  (m : AudioManager.t) (now : Q) (c bin : string) :
  atob c = Some bin ->
  Nat.even (String.length bin) = true ->
  bin <> EmptyString ->
  (nextStartTime (playAudioChunk now c m)
   == Qmax now (nextStartTime m)
      + inject_Z (Z.of_nat (String.length bin)) / 48000)%Q /\
  List.length (audioSources (playAudioChunk now c m))
  = S (List.length (audioSources m)).
Proof.
  intros Hc Heven Hne.
  assert (Hlen : (String.length bin / 2 <> 0)%nat /\
                 Z.of_nat (String.length bin)
                 = 2 * Z.of_nat (String.length bin / 2)).
  { destruct bin as [|c1 [|c2 rest]]; [contradiction | discriminate |].
    apply Nat.even_spec in Heven. destruct Heven as [k Hk].
    rewrite Hk. replace (2 * k)%nat with (k * 2)%nat by lia.
    rewrite Nat.div_mul by discriminate.
    cbn [String.length] in Hk. split; lia. }
  destruct Hlen as [Hnz Hz].
  assert (Hdec : decodeAudioData c outputSampleRate 1 =
                 Returned {| numberOfChannels := 1;
                             length := (String.length bin / 2)%nat;
                             sampleRate := outputSampleRate;
                             channelData :=
                               [map (fun i => dequantize
                                        (nth (i * 1 + 0)
                                             (int16_view (map charCode (list_ascii_of_string bin)))
                                             0))
                                    (seq 0 (String.length bin / 2))] |}).
  { unfold decodeAudioData. rewrite Hc.
    rewrite length_map, units_of_string_length.
    rewrite <- Nat.negb_even, Heven. cbn [negb].
    rewrite int16_view_length, length_map, units_of_string_length.
    rewrite Nat.div_1_r. unfold createBuffer.
    apply Nat.eqb_neq in Hnz. rewrite Hnz. reflexivity. }
  unfold playAudioChunk. rewrite (schedule_ok now c m _ Hdec).
  cbn [fst nextStartTime audioSources].
  split.
  - unfold duration. cbn [length sampleRate]. rewrite Hz.
    unfold outputSampleRate.
    rewrite inject_Z_mult.
    set (n := inject_Z (Z.of_nat (String.length bin / 2))).
    change (inject_Z 2) with 2%Q. change (inject_Z 24000) with 24000%Q.
    field.
  - rewrite length_app. cbn. lia.
Qed.

Lemma cursor_advances_by_byte_count_witness :
  (nextStartTime (playAudioChunk 3 "AAAAAA==" AudioManager.new)
   == Qmax 3 0 + inject_Z 4 / 48000)%Q.
Proof.
  refine (proj1 (cursor_advances_by_byte_count AudioManager.new 3 "AAAAAA=="
                   (String zero (String zero (String zero (String zero EmptyString))))
                   eq_refl eq_refl _)).
  discriminate.
Defined.

Lemma step_keeps_closed (m : AudioManager.t) (op : Op) :
  isClosed m = true -> isClosed (step m op) = true.
Proof.
  intros H. destruct op as [now c | id | |]; cbn [step]; try exact H.
  - unfold playAudioChunk, schedule.
    destruct (decodeAudioData c outputSampleRate 1); exact H.
  - reflexivity.
Qed.

Lemma steps_keep_closed (ops : list Op) (m : AudioManager.t) :
  isClosed m = true -> isClosed (fold_left step ops m) = true.
Proof.
  revert m. induction ops as [|op ops IH]; intros m H; [exact H |].
  cbn [fold_left]. apply IH. now apply step_keeps_closed.
Qed.

Lemma steps_keep_microphone (ops : list Op) (m : AudioManager.t) :
  ~ In Close ops ->
  In InputReady ops \/ (stream m = true /\ processor m = true) ->
  stream (fold_left step ops m) = true /\
  processor (fold_left step ops m) = true.
Proof.
  revert m. induction ops as [|op ops IH]; intros m Hc H.
  - destruct H as [[] | H]. exact H.
  - cbn [fold_left]. apply IH; [intros Hin; apply Hc; now right |].
    destruct op as [now c | id | |].
    + destruct H as [[H | H] | H]; [discriminate | now left | right].
      unfold step, playAudioChunk, schedule.
      destruct (decodeAudioData c outputSampleRate 1); exact H.
    + destruct H as [[H | H] | H]; [discriminate | now left | right; exact H].
    + right. split; reflexivity.
    + exfalso. apply Hc. now left.
Qed.

(** X7.  A closed manager stays closed.  After [close()], whatever
    happens next (chunks enqueued, nodes ending, a pending microphone
    request being granted, further closes), the closed flag stays up and
    the block callback emits nothing, for any block and any sensitivity.
    Yet a microphone request granted after the last [close()] still
    installs the stream and the processor on the closed manager, and
    nothing releases them unless [close()] is called again. *)
Theorem closed_manager_stays_closed (before later : list Op) :
  let m := run (before ++ Close :: later) in
  isClosed m = true /\
  (forall sensitivity inputData, onaudioprocess sensitivity m inputData = None) /\
  (~ In Close later -> In InputReady later ->
   stream m = true /\ processor m = true).
Proof.
  cbv zeta. unfold run. rewrite fold_left_app. cbn [fold_left].
  set (m0 := step (fold_left step before AudioManager.new) Close).
  assert (H : isClosed (fold_left step later m0) = true)
    by (apply steps_keep_closed; reflexivity).
  split; [exact H |]. split.
  - intros sensitivity inputData. unfold onaudioprocess. now rewrite H.
  - intros Hc Hi. apply steps_keep_microphone; [exact Hc | now left].
Qed.

Lemma consistent_new : consistent AudioManager.new.
Proof.
  repeat split; cbn; [discriminate | constructor | constructor].
Qed.

Lemma consistent_step m op : consistent m -> consistent (step m op).
Proof.
  intros [Hc [Hnd Hall]]. destruct op as [now c | id | |]; cbn [step].
  - unfold playAudioChunk.
    destruct (schedule_cases now c m)
      as [[e [_ ->]] | [b [m' [s [Hdec [E [Hbuf [Hs [Hn Hd]]]]]]]]];
      cbn [fst]; [now repeat split |].
    clear E Hs Hn Hbuf s m'.
    rewrite (schedule_ok now c m b Hdec).
    unfold consistent. cbn [fst nextStartTime audioSources created].
    pose proof (Q.le_max_r now (nextStartTime m)) as Hmax.
    split; [lra |]. split.
    + rewrite map_app. cbn [map source_id].
      apply NoDup_app; [exact Hnd | repeat constructor; intros [] |].
      intros x Hx. intros [<- | []].
      apply in_map_iff in Hx. destruct Hx as [s [Hid Hin]].
      rewrite Forall_forall in Hall. destruct (Hall s Hin) as [Hlt _]. lia.
    + apply Forall_app. split.
      * apply Forall_forall. intros s Hin.
        rewrite Forall_forall in Hall. destruct (Hall s Hin) as [Hlt [Hpos Hend]].
        split; [lia |]. split; [exact Hpos | lra].
      * constructor; [| constructor].
        cbn [source_id buffer]. unfold endTime. cbn [startTime buffer].
        split; [lia |]. split; [exact Hd | lra].
  - unfold consistent, onended.
    cbn [nextStartTime audioSources created].
    split; [exact Hc |]. split.
    + clear Hall. induction (audioSources m) as [|s l IH]; [constructor |].
      cbn [map] in Hnd. inversion_clear Hnd as [|? ? Hnotin Hnd'].
      cbn [filter]. destruct (negb (source_id s =? id)%nat).
      * cbn [map]. constructor; [| now apply IH].
        intros Hin. apply Hnotin.
        apply in_map_iff in Hin. destruct Hin as [s' [Hid Hin]].
        apply filter_In in Hin. apply in_map_iff. exists s'. tauto.
      * now apply IH.
    + apply Forall_forall. intros s Hin. apply filter_In in Hin.
      rewrite Forall_forall in Hall. now apply Hall.
  - now repeat split.
  - repeat split; cbn; [discriminate | constructor | constructor].
Qed.

Lemma consistent_run ops : consistent (run ops).
Proof.
  unfold run.
  assert (H : forall m, consistent m -> consistent (fold_left step ops m)).
  { induction ops as [|op ops IH]; intros m Hm; [exact Hm |].
    cbn [fold_left]. apply IH. now apply consistent_step. }
  apply H, consistent_new.
Qed.

(** X8.  Along any history of a manager (enqueues at arbitrary times, nodes
    ending, the microphone becoming ready, closes), the live set holds
    distinct nodes, each ending no later than the cursor; hence a chunk
    enqueued next gets a node that is not in the live set and starts at or
    after the end of every node still live: nothing live is ever
    overlapped. *)
Theorem new_node_never_overlaps_a_live_node
  (ops : list Op) (now : Q) (c : string) (s : AudioBufferSourceNode) :
  snd (schedule now c (run ops)) = Some s ->
  NoDup (map source_id (audioSources (run ops))) /\
  (forall live, In live (audioSources (run ops)) ->
                source_id live <> source_id s /\
                (endTime live <= startTime s)%Q) /\
  (0 <= startTime s)%Q.
Proof.
  intros Hs.
  destruct (consistent_run ops) as [Hc [Hnd Hall]].
  destruct (schedule_cases now c (run ops))
    as [[e [_ E]] | [b [m' [s0 [Hdec [E [Hbuf [Hst [Hn Hd]]]]]]]]];
    rewrite E in Hs; [discriminate |].
  cbn [snd] in Hs. injection Hs as <-.
  pose proof (Q.le_max_r now (nextStartTime (run ops))) as Hmax.
  split; [exact Hnd |]. split.
  - intros live Hin. rewrite Forall_forall in Hall.
    destruct (Hall live Hin) as [Hlt [_ Hend]].
    rewrite (schedule_ok now c (run ops) b Hdec) in E. injection E as _ <-.
    cbn [source_id startTime]. split; [lia | lra].
  - rewrite Hst. lra.
Qed.

Lemma new_node_never_overlaps_a_live_node_witness :
  exists s,
    snd (schedule 0 "AAA=" (run [Play 0 "AAAAAA=="; InputReady; Play 5 "AAA="]))
    = Some s /\ (0 <= startTime s)%Q.
Proof.
  destruct (snd (schedule 0 "AAA="
                   (run [Play 0 "AAAAAA=="; InputReady; Play 5 "AAA="])))
    as [s |] eqn:E; [| discriminate E].
  exists s. split; [reflexivity |].
  exact (proj2 (proj2 (new_node_never_overlaps_a_live_node _ _ _ s E))).
Defined.

Lemma sum_squares_bound (t : Q) (l : list Q) :
  Forall (fun x => Qabs x <= t)%Q l ->
  forall acc,
    (fold_left (fun sum x => sum + x * x) l acc
     <= acc + inject_Z (Z.of_nat (List.length l)) * (t * t))%Q.
Proof.
  induction 1 as [|x l Hx _ IH]; intros acc.
  - cbn [fold_left List.length].
    change (inject_Z (Z.of_nat 0)) with 0%Q. rewrite Qmult_0_l. lra.
  - cbn [fold_left List.length]. specialize (IH (acc + x * x)%Q).
    rewrite Nat2Z.inj_succ. unfold Z.succ. rewrite inject_Z_plus.
    change (inject_Z 1) with 1%Q.
    apply Qabs_Qle_condition in Hx.
    set (n := inject_Z (Z.of_nat (List.length l))) in *.
    assert (Hsq : (x * x <= t * t)%Q).
    { assert (H0 : (0 <= (t - x) * (t + x))%Q)
        by (apply Qmult_le_0_compat; lra).
      assert (E0 : ((t - x) * (t + x) == t * t - x * x)%Q) by ring.
      rewrite E0 in H0. lra. }
    set (xx := (x * x)%Q) in *. set (tt := (t * t)%Q) in *.
    set (rest := fold_left _ l _) in *.
    assert (E : ((n + 1) * tt == n * tt + tt)%Q) by ring.
    rewrite E. lra.
Qed.

Lemma rms_exceeds_monotone (inputData : list Q) (t1 t2 : Q) :
  (t2 <= t1)%Q -> rms_exceeds inputData t1 = true ->
  rms_exceeds inputData t2 = true.
Proof.
  intros Hle. unfold rms_exceeds.
  destruct inputData as [|x l]; [discriminate |].
  destruct (Qlt_le_dec t1 0) as [H1 | H1], (Qlt_le_dec t2 0) as [H2 | H2];
    try reflexivity; [lra |].
  destruct (Qlt_le_dec (t1 * t1) (mean_square (x :: l))) as [Hlt | _];
    [| discriminate].
  intros _.
  destruct (Qlt_le_dec (t2 * t2) (mean_square (x :: l))) as [_ | Hge];
    [reflexivity |].
  assert (H0 : (0 <= (t1 - t2) * (t1 + t2))%Q)
    by (apply Qmult_le_0_compat; lra).
  assert (E0 : ((t1 - t2) * (t1 + t2) == t1 * t1 - t2 * t2)%Q) by ring.
  rewrite E0 in H0. lra.
Qed.


(** X10.  From the gate to the player.  A frame the block callback emits
    is always playable: its descriptor is ["audio/pcm;rate=16000"], and
    the playback decoder accepts its payload and returns one channel with
    exactly as many samples as the captured block, each the 16-bit
    encoding of the block's sample divided by 32768. *)
Theorem emitted_frame_is_playable
  (s : Q) (m : AudioManager.t) (inputData : list Q) (blob : Blob) :
  onaudioprocess s m inputData = Some blob ->
  mimeType blob = "audio/pcm;rate=16000"%string /\
  decodeAudioData (data blob) outputSampleRate 1 =
  Returned {| numberOfChannels := 1;
              length := List.length inputData;
              sampleRate := outputSampleRate;
              channelData := [map (fun x => dequantize (sampleToInt16 x))
                                  inputData] |}.
Proof.
  unfold onaudioprocess.
  destruct (isClosed m); [discriminate |].
  destruct (rms_exceeds inputData (threshold s)) eqn:E; [| discriminate].
  intros H. injection H as <-.
  split; [reflexivity |].
  assert (Hne : float32ToInt16 inputData <> []).
  { destruct inputData; [discriminate E | discriminate]. }
  rewrite (decode_frame _ inputSampleRate outputSampleRate Hne
             (float32ToInt16_range inputData)).
  rewrite float32ToInt16_length. unfold float32ToInt16.
  now rewrite map_map.
Qed.

Lemma emitted_frame_is_playable_witness :
  exists blob,
    onaudioprocess (3 # 5) AudioManager.new [1 # 2; -1 # 2] = Some blob /\
    mimeType blob = "audio/pcm;rate=16000"%string.
Proof.
  destruct (onaudioprocess (3 # 5) AudioManager.new [1 # 2; -1 # 2])
    as [blob |] eqn:E; [| discriminate E].
  exists blob. split; [reflexivity |].
  exact (proj1 (emitted_frame_is_playable (3 # 5) AudioManager.new
                  [1 # 2; -1 # 2] blob E)).
Defined.

End AudioExtras.

(* ================================================================= *)
(** ** Further properties of the tool dispatcher *)

Module ToolExtras.
Import Tools Declarations App Observe AsyncFacts ToolsFacts ToolProperties Samples.
Local Open Scope string_scope.

Lemma append_length (s1 s2 : string) :
  String.length (s1 ++ s2) = (String.length s1 + String.length s2)%nat.
Proof. induction s1 as [|c s1 IH]; cbn; [reflexivity | now rewrite IH]. Qed.

Lemma substring_length (n : nat) (s : string) :
  (n <= String.length s)%nat -> String.length (substring 0 n s) = n.
Proof.
  revert s. induction n as [|n IH]; intros s Hn.
  - destruct s; reflexivity.
  - destruct s as [|c s]; [cbn in Hn; lia |].
    cbn [substring String.length]. rewrite IH; [reflexivity |].
    cbn in Hn. lia.
Qed.

(** X11.  [open_website] with an address.  An address that starts with
    ["http"] is opened as given, any other gets ["https://"] in front; in
    both cases the address opened starts with ["http"], exactly one window
    is opened, nothing else in the world changes and the result names the
    address opened. *)
Theorem open_website_normalises_the_address
  (env : Env) (o : JsObj) (u apiKey : string)
  (onMediaGenerated : MediaItem -> M unit) (activeFile : option ActiveFile)
  (w : World) :
  prop o "url" = JStr u ->
  let url := if prefix "http" u then u else "https://" ++ u in
  executeTool env "open_website" (Some o) apiKey onMediaGenerated activeFile w
  = (Settled [("result", JStr ("Opened website: " ++ url))],
     set_trace (trace w ++ [EvWindowOpen url]) w) /\
  prefix "http" url = true /\
  (prefix "http" u = false -> url = "https://" ++ u).
Proof.
  intros Hu url. split; [| split].
  - unfold executeTool, try_catch, executeTool_switch.
    cbn [String.eqb Ascii.eqb Bool.eqb]. unfold arg. run_async.
    rewrite Hu. run_async. reflexivity.
  - subst url. destruct (prefix "http" u) eqn:E; [exact E | reflexivity].
  - subst url. intros ->. reflexivity.
Qed.

Lemma open_website_normalises_the_address_witness :
  fst (executeTool (services true) "open_website"
                   (Some [("url", JStr "example.com")]) "key"
                   (handleMediaGenerated (services true)) None (world []))
  = Settled [("result", JStr "Opened website: https://example.com")].
Proof.
  pose proof (open_website_normalises_the_address
                (services true) [("url", JStr "example.com")] "example.com"
                "key" (handleMediaGenerated (services true)) None (world [])
                eq_refl) as H.
  cbv zeta in H. destruct H as [H _]. exact (f_equal fst H).
Defined.

(** X12.  [open_website] without an address.  When the call carries no
    argument object, or the object has no [url], the property read fails
    inside the [try]: the dispatcher settles with an error result, no
    window is opened and the world is unchanged. *)
Theorem open_website_without_address_opens_nothing
  (env : Env) (args : Args) (apiKey : string)
  (onMediaGenerated : MediaItem -> M unit) (activeFile : option ActiveFile)
  (w : World) :
  args = None \/ (exists o, args = Some o /\ prop o "url" = JUndefined) ->
  exists message,
    executeTool env "open_website" args apiKey onMediaGenerated activeFile w
    = (Settled [("result", JStr ("Error executing tool: " ++ message))], w).
Proof.
  unfold executeTool, try_catch, executeTool_switch.
  cbn [String.eqb Ascii.eqb Bool.eqb]. unfold arg.
  intros [-> | [o [-> Hu]]]; run_async.
  - eexists. reflexivity.
  - rewrite Hu. run_async. eexists. reflexivity.
Qed.

Lemma open_website_without_address_opens_nothing_witness :
  exists message,
    executeTool (services true) "open_website" (Some [("query", JStr "x")])
                "key" (handleMediaGenerated (services true)) None (world [])
    = (Settled [("result", JStr ("Error executing tool: " ++ message))],
       world []).
Proof.
  apply open_website_without_address_opens_nothing.
  right. eexists. split; reflexivity.
Defined.

(** X13.  [read_active_file].  Without a file the result says so.  With a
    file the result is its name and its content, the content cut to its
    first 50000 characters followed by ["... [TRUNCATED]"] when it is
    longer: the reported body never exceeds 50015 characters, is the
    content itself up to 50000, and the world is unchanged either way. *)
Theorem read_active_file_truncates
  (env : Env) (args : Args) (apiKey : string)
  (onMediaGenerated : MediaItem -> M unit) (file : ActiveFile) (w : World) :
  executeTool env "read_active_file" args apiKey onMediaGenerated None w
  = (Settled [("result", JStr "No file is currently uploaded.")], w) /\
  executeTool env "read_active_file" args apiKey onMediaGenerated (Some file) w
  = (Settled [("result",
               JStr ("File Name: " ++ file_name file ++ newline ++ "Content:"
                     ++ newline ++ reported (file_content file)))], w) /\
  (N.of_nat (String.length (reported (file_content file))) <= 50015)%N /\
  ((N.of_nat (String.length (file_content file)) <= 50000)%N ->
   reported (file_content file) = file_content file) /\
  ((50000 < N.of_nat (String.length (file_content file)))%N ->
   N.of_nat (String.length (reported (file_content file))) = 50015%N /\
   prefix (substring 0 (N.to_nat 50000) (file_content file))
          (reported (file_content file)) = true).
Proof.
  split; [reflexivity |]. split; [reflexivity |].
  unfold reported.
  destruct (50000 <? N.of_nat (String.length (file_content file)))%N eqn:E.
  - apply N.ltb_lt in E.
    assert (Hlen : String.length (substring 0 (N.to_nat 50000) (file_content file))
                   = N.to_nat 50000).
    { apply substring_length. lia. }
    assert (Htot : N.of_nat (String.length
                     (substring 0 (N.to_nat 50000) (file_content file)
                      ++ "... [TRUNCATED]")) = 50015%N).
    { rewrite append_length, Hlen.
      change (String.length "... [TRUNCATED]") with 15%nat. lia. }
    split; [rewrite Htot; discriminate |].
    split; [intros H; lia |].
    intros _. split; [exact Htot |].
    apply prefix_correct.
    set (p := substring 0 (N.to_nat 50000) (file_content file)) in *.
    clear. induction p as [|c p IH]; cbn.
    + reflexivity.
    + now rewrite IH.
  - apply N.ltb_ge in E.
    split; [lia |]. split; [reflexivity |]. intros H. lia.
Qed.

(** X14.  Capabilities that stay local.  For every name that is not one
    of the five remote capabilities the dispatcher settles at once: no
    time passes, no request is made, no media item is produced, and the
    trace gains at most the one window opened by [open_website].  A name
    that is not declared at all gets the result ["Function not found"] and
    leaves the world untouched. *)
Theorem local_capabilities_settle_at_once
  (env : Env) (name : string) (args : Args) (apiKey : string)
  (onMediaGenerated : MediaItem -> M unit) (activeFile : option ActiveFile)
  (w : World) :
  ~ remote name ->
  exists o w',
    executeTool env name args apiKey onMediaGenerated activeFile w
    = (Settled o, w') /\
    clock w' = clock w /\ mediaItems w' = mediaItems w /\
    logs w' = logs w /\ pendingPolls w' = pendingPolls w /\
    (trace w' = trace w \/
     name = "open_website" /\
     exists url, trace w' = (trace w ++ [EvWindowOpen url])%list) /\
    (~ declared name ->
     o = [("result", JStr "Function not found")] /\ w' = w).
Proof.
  intros Hlocal.
  unfold executeTool, try_catch, executeTool_switch.
  destruct (String.eqb name "open_website") eqn:E1.
  { apply String.eqb_eq in E1. unfold arg.
    assert (Hd : declared name) by (subst name; cbn; tauto).
    destruct args as [o |]; run_async.
    - destruct (prop o "url") as [| u]; run_async.
      + eexists _, _. split; [reflexivity |].
        repeat split; auto; contradiction.
      + eexists _, _. split; [reflexivity |].
        cbn [clock mediaItems logs pendingPolls trace set_trace].
        repeat split; eauto; contradiction.
    - eexists _, _. split; [reflexivity |].
      repeat split; auto; contradiction. }
  destruct (String.eqb name "get_current_time") eqn:E2.
  { apply String.eqb_eq in E2.
    assert (Hd : declared name) by (subst name; cbn; tauto).
    run_async. eexists _, _. split; [reflexivity |].
    repeat split; auto; contradiction. }
  destruct (String.eqb name "read_active_file") eqn:E3.
  { apply String.eqb_eq in E3.
    assert (Hd : declared name) by (subst name; cbn; tauto).
    destruct activeFile; run_async;
      (eexists _, _; split; [reflexivity |];
       repeat split; auto; contradiction). }
  destruct (String.eqb name "consult_logic_core") eqn:E4.
  { apply String.eqb_eq in E4. exfalso. apply Hlocal. subst. cbn. tauto. }
  destruct (String.eqb name "search_web") eqn:E5.
  { apply String.eqb_eq in E5. exfalso. apply Hlocal. subst. cbn. tauto. }
  destruct (String.eqb name "find_places") eqn:E6.
  { apply String.eqb_eq in E6. exfalso. apply Hlocal. subst. cbn. tauto. }
  destruct (String.eqb name "generate_image") eqn:E7.
  { apply String.eqb_eq in E7. exfalso. apply Hlocal. subst. cbn. tauto. }
  destruct (String.eqb name "generate_video") eqn:E8.
  { apply String.eqb_eq in E8. exfalso. apply Hlocal. subst. cbn. tauto. }
  run_async. eexists _, _. split; [reflexivity |]. repeat split; auto.
Qed.

Lemma local_capabilities_settle_at_once_witness :
  exists w',
    executeTool (services true) "launch_rocket" None "key"
                (handleMediaGenerated (services true)) None (world [])
    = (Settled [("result", JStr "Function not found")], w').
Proof.
  assert (Hl : ~ remote "launch_rocket").
  { cbn. intros [H | [H | [H | [H | [H | []]]]]]; discriminate H. }
  assert (Hd : ~ declared "launch_rocket").
  { cbn. intros [H | [H | [H | [H | [H | [H | [H | [H | []]]]]]]]];
      discriminate H. }
  destruct (local_capabilities_settle_at_once
              (services true) "launch_rocket" None "key"
              (handleMediaGenerated (services true)) None (world []) Hl)
    as [o [w' [E [_ [_ [_ [_ [_ Hnot]]]]]]]].
  destruct (Hnot Hd) as [-> _].
  exists w'. exact E.
Defined.

(** What the callback of the orchestrator leaves behind. *)
Lemma handleMediaGenerated_run env item w :
  handleMediaGenerated env item w =
  (Settled tt,
   set_logs (logs w ++ [mkLog (randomId env (rng w))
                              (toLocaleTimeString env (clock w)) SYSTEM
                              ("New Media Generated: " ++ toUpperCase (media_type item))
                              LogType.success])%list
            (set_rng (S (rng w))
                     (set_mediaItems (mediaItems w ++ [item])%list w))).
Proof. reflexivity. Qed.

Lemma handleMediaGenerated_run_app env item w :
  snd (handleMediaGenerated env item w) =
   set_logs (logs w ++ [mkLog (randomId env (rng w))
                              (toLocaleTimeString env (clock w)) SYSTEM
                              ("New Media Generated: " ++ toUpperCase (media_type item))
                              LogType.success])%list
            (set_rng (S (rng w))
                     (set_mediaItems (mediaItems w ++ [item])%list w)).
Proof. reflexivity. Qed.

(** X15.  [generate_image].  One request is sent, for the prompt, with the
    aspect ratio of the call when it has a non-empty one and ["16:9"]
    otherwise; the ratio is passed on as given.  If the request fails the
    result reports the error and no media item is produced; if the
    response has a part with inline data, exactly one image item is
    produced, holding a data URL of the first such part and the prompt as
    title; otherwise the result is ["Failed to generate image."] and no
    item is produced. *)
Theorem generate_image_outcomes
  (env : Env) (o : JsObj) (apiKey : string) (activeFile : option ActiveFile)
  (w : World) :
  let run := executeTool env "generate_image" (Some o) apiKey
                         (handleMediaGenerated env) activeFile w in
  trace (snd run) = (trace w ++ [EvGenerateContent (imageRequest o)])%list /\
  match generateContent env (imageRequest o) with
  | Thrown e =>
      fst run = Settled [("result", JStr ("Error executing tool: " ++ err_message e))] /\
      mediaItems (snd run) = mediaItems w
  | Returned response =>
      match firstInline response with
      | Some data =>
          fst run = Settled [("result", JStr "Image generated and displayed on screen.")] /\
          exists item,
            mediaItems (snd run) = (mediaItems w ++ [item])%list /\
            media_type item = MediaType.image /\
            media_url item = JStr ("data:image/png;base64," ++ interpolate data) /\
            media_title item = prop o "prompt"
      | None =>
          fst run = Settled [("result", JStr "Failed to generate image.")] /\
          mediaItems (snd run) = mediaItems w
      end
  end.
Proof.
  cbv zeta.
  unfold executeTool, try_catch, executeTool_switch.
  cbn [String.eqb Ascii.eqb Bool.eqb]. unfold arg. run_async.
  fold (imageRequest o).
  destruct (generateContent env (imageRequest o)) as [response | e]; run_async.
  - unfold firstInline.
    destruct (find _ (resp_parts response)) as [[data |] |]; run_async.
    + change (String.eqb ("data:image/png;base64," ++ interpolate data) "")
        with false.
      cbn [negb]. run_async.
      rewrite handleMediaGenerated_run. run_async.
      split; [reflexivity |]. split; [reflexivity |].
      eexists. repeat split.
    + repeat split.
    + repeat split.
  - repeat split.
Qed.

(** X16.  [search_web].  One grounded request is sent for the query.  If
    it fails, the result reports the error and no media item is produced.
    If it succeeds, exactly one item of type search is produced, holding
    the response text and its grounding chunks, one log line announces it,
    and the result quotes the response text. *)
Theorem search_web_outcomes
  (env : Env) (o : JsObj) (apiKey : string) (activeFile : option ActiveFile)
  (w : World) :
  let request := mkRequest "gemini-2.5-flash" (prop o "query") GoogleSearch in
  let run := executeTool env "search_web" (Some o) apiKey
                         (handleMediaGenerated env) activeFile w in
  trace (snd run) = (trace w ++ [EvGenerateContent request])%list /\
  match generateContent env request with
  | Thrown e =>
      fst run = Settled [("result", JStr ("Error executing tool: " ++ err_message e))] /\
      mediaItems (snd run) = mediaItems w /\ logs (snd run) = logs w
  | Returned response =>
      fst run = Settled [("result",
                          JStr ("Search complete. I have displayed the results: "
                                ++ interpolate (resp_text response)))] /\
      exists item line,
        mediaItems (snd run) = (mediaItems w ++ [item])%list /\
        media_type item = MediaType.search /\
        media_content item = resp_text response /\
        media_metadata item = resp_groundingChunks response /\
        logs (snd run) = (logs w ++ [line])%list /\
        log_line line = (SYSTEM, "New Media Generated: SEARCH", LogType.success)
  end.
Proof.
  cbv zeta.
  unfold executeTool, try_catch, executeTool_switch.
  cbn [String.eqb Ascii.eqb Bool.eqb]. unfold arg. run_async.
  destruct (generateContent env _) as [response | e]; run_async.
  - rewrite handleMediaGenerated_run. run_async.
    split; [reflexivity |]. split; [reflexivity |].
    eexists _, _. repeat split.
  - repeat split.
Qed.

(** X17.  [find_places].  The request carries the user's position when the
    position is available and none otherwise: a refused or missing
    position does not fail the call.  If the request fails, the result
    reports the error and no media item is produced; if it succeeds,
    exactly one item of type map is produced with the response text, and
    the result is the fixed sentence. *)
Theorem find_places_outcomes
  (env : Env) (o : JsObj) (apiKey : string) (activeFile : option ActiveFile)
  (w : World) :
  let request := mkRequest "gemini-2.5-flash" (prop o "query")
                           (GoogleMaps (getUserLocation env)) in
  let run := executeTool env "find_places" (Some o) apiKey
                         (handleMediaGenerated env) activeFile w in
  trace (snd run) = (trace w ++ [EvGenerateContent request])%list /\
  match generateContent env request with
  | Thrown e =>
      fst run = Settled [("result", JStr ("Error executing tool: " ++ err_message e))] /\
      mediaItems (snd run) = mediaItems w
  | Returned response =>
      fst run = Settled [("result",
                          JStr "I found some places. details are on the display.")] /\
      exists item,
        mediaItems (snd run) = (mediaItems w ++ [item])%list /\
        media_type item = MediaType.map /\
        media_content item = resp_text response /\
        media_metadata item = resp_groundingChunks response
  end.
Proof.
  cbv zeta.
  unfold executeTool, try_catch, executeTool_switch.
  cbn [String.eqb Ascii.eqb Bool.eqb]. unfold arg. run_async.
  destruct (generateContent env _) as [response | e]; run_async.
  - rewrite handleMediaGenerated_run. run_async.
    split; [reflexivity |]. split; [reflexivity |].
    eexists. repeat split.
  - repeat split.
Qed.

Lemma polled_zero env w :
  polled env 0 (pendingPolls w) w = w.
Proof.
  destruct w. unfold polled.
  cbv [set_clock set_pendingPolls set_trace clock rng pendingPolls trace
       logs mediaItems connectionState isMicActive isAwake
       audioManagerRef sessionRef].
  cbn [repeat]. rewrite app_nil_r. change (N.of_nat 0) with 0%N.
  now rewrite N.mul_0_l, N.add_0_r.
Qed.

Lemma last_cons (l : list Operation) (x d : Operation) :
  last (x :: l) d = last l x.
Proof.
  revert x d. induction l as [|y l IH]; intros x d; [reflexivity |].
  change (last (x :: y :: l) d) with (last (y :: l) d).
  now rewrite !IH.
Qed.

(** The loop through a run of answers that are not done. *)
Lemma pollLoop_prefix env (waiting : list Operation) script :
  Forall not_done waiting ->
  forall operation w,
    not_done operation ->
    pendingPolls w = (map Returned waiting ++ script)%list ->
    pollLoop env (map Returned waiting ++ script) operation w
    = pollLoop env script (last waiting operation)
               (polled env (List.length waiting) script w).
Proof.
  induction 1 as [| nd waiting Hnd _ IH]; intros operation w Hop Hw.
  - cbn [map app List.length last] in *. rewrite <- Hw, polled_zero. reflexivity.
  - cbn [map app List.length pollLoop]. unfold not_done in Hop. rewrite Hop.
    run_async.
    rewrite IH; [| exact Hnd | reflexivity].
    f_equal.
    + symmetry. apply last_cons.
    + destruct w. unfold polled.
      cbv [set_clock set_pendingPolls set_trace clock rng pendingPolls trace
           logs mediaItems connectionState isMicActive isAwake
           audioManagerRef sessionRef].
      cbn [List.length repeat].
      f_equal; [lia |].
      rewrite <- app_assoc. reflexivity.
Qed.

Lemma last_not_done (waiting : list Operation) operation :
  Forall not_done waiting -> not_done operation ->
  not_done (last waiting operation).
Proof.
  induction 1 as [| nd waiting Hnd _ IH]; intros Hop; [exact Hop |].
  cbn [last]. destruct waiting; [exact Hnd | now apply IH].
Qed.

Lemma count_status_checks_repeat n :
  count_status_checks (repeat EvGetVideosOperation n) = n.
Proof.
  unfold count_status_checks.
  induction n as [|n IH]; [reflexivity |]. cbn. now rewrite IH.
Qed.

(** X18.  Polling to completion, any number of times.  When the request
    returns an operation that is not done and the service answers not
    done [n] times and then done, with a video address whose download
    succeeds, the capability makes exactly [n + 1] status checks and
    sleeps as many polling intervals, leaves the later answers untouched,
    produces exactly one video item and settles with the success
    result. *)
Theorem video_status_checks_follow_the_answers
  (env : Env) (o : JsObj) (apiKey : string) (activeFile : option ActiveFile)
  (w : World) (op0 fin : Operation) (waiting : list Operation)
  (uri url : string) (rest : list (Result Operation)) :
  generateVideos env (prop o "prompt") = Returned op0 ->
  not_done op0 -> Forall not_done waiting ->
  pendingPolls w = (map Returned waiting ++ Returned fin :: rest)%list ->
  op_done fin = true ->
  op_videoUri fin = JStr uri -> uri <> "" ->
  fetchObjectUrl env (uri ++ "&key=" ++ apiKey) = Returned url ->
  exists w',
    executeTool env "generate_video" (Some o) apiKey
                (handleMediaGenerated env) activeFile w
    = (Settled [("result", JStr "Video generated and ready to play.")], w') /\
    trace w' = (trace w ++ EvGenerateVideos (prop o "prompt")
                  :: repeat EvGetVideosOperation (S (List.length waiting))
                  ++ [EvFetch (uri ++ "&key=" ++ apiKey)])%list /\
    count_status_checks (skipn (List.length (trace w)) (trace w'))
    = S (List.length waiting) /\
    pendingPolls w' = rest /\
    (exists item,
        mediaItems w' = (mediaItems w ++ [item])%list /\
        media_type item = MediaType.video /\ media_url item = JStr url) /\
    clock w' = (clock w
                + N.of_nat (S (List.length waiting)) * pollInterval
                + N.of_nat (List.length waiting + 3) * roundTrip env)%N.
Proof.
  intros Hgen Hd0 Hwait Hpolls Hfin Huri Hne Hfetch.
  apply String.eqb_neq in Hne.
  destruct w as [clk rn polls tr lg media st mic awake am sess].
  cbn [pendingPolls] in Hpolls. subst polls.
  eexists. split.
  - unfold executeTool, try_catch, executeTool_switch.
    cbn [String.eqb Ascii.eqb Bool.eqb].
    unfold arg. run_async. rewrite Hgen. run_async.
    rewrite (pollLoop_prefix env waiting (Returned fin :: rest) Hwait)
      by (exact Hd0 || reflexivity).
    cbn [pollLoop].
    rewrite (last_not_done waiting op0 Hwait Hd0).
    unfold polled. run_async.
    rewrite (pollLoop_done env rest fin Hfin). run_async.
    rewrite Huri. cbn [truthy interpolate]. rewrite Hne. cbn [negb].
    run_async. rewrite Hfetch. run_async.
    rewrite handleMediaGenerated_run. run_async.
    reflexivity.
  - cbn [trace pendingPolls mediaItems clock set_trace set_clock set_rng
         set_pendingPolls set_logs set_mediaItems].
    assert (Htrace :
              ((((tr ++ [EvGenerateVideos (prop o "prompt")])
                   ++ repeat EvGetVideosOperation (List.length waiting))
                  ++ [EvGetVideosOperation])
                 ++ [EvFetch (uri ++ "&key=" ++ apiKey)])%list
              = (tr ++ EvGenerateVideos (prop o "prompt")
                   :: repeat EvGetVideosOperation (S (List.length waiting))
                   ++ [EvFetch (uri ++ "&key=" ++ apiKey)])%list).
    { rewrite <- !app_assoc. cbn [app repeat]. f_equal. f_equal.
      change [EvGetVideosOperation; EvFetch (uri ++ "&key=" ++ apiKey)]
        with ([EvGetVideosOperation] ++ [EvFetch (uri ++ "&key=" ++ apiKey)])%list.
      rewrite app_assoc, <- repeat_cons. reflexivity. }
    rewrite Htrace.
    split; [reflexivity |].
    rewrite skipn_length_app.
    split.
    { change (EvGenerateVideos (prop o "prompt")
                :: repeat EvGetVideosOperation (S (List.length waiting))
                ++ [EvFetch (uri ++ "&key=" ++ apiKey)])%list
        with ([EvGenerateVideos (prop o "prompt")]
                ++ repeat EvGetVideosOperation (S (List.length waiting))
                ++ [EvFetch (uri ++ "&key=" ++ apiKey)])%list.
      rewrite !count_status_checks_app, count_status_checks_repeat.
      cbn. lia. }
    split; [reflexivity |].
    split; [eexists; repeat split |].
    lia.
Qed.

Lemma video_status_checks_follow_the_answers_witness :
  exists w',
    executeTool (services true) "generate_video"
                (Some [("prompt", JStr "a sunrise")]) "key"
                (handleMediaGenerated (services true)) None
                (world [Returned running; Returned finished; Returned running])
    = (Settled [("result", JStr "Video generated and ready to play.")], w') /\
    pendingPolls w' = [Returned running].
Proof.
  destruct (video_status_checks_follow_the_answers
              (services true) [("prompt", JStr "a sunrise")] "key" None
              (world [Returned running; Returned finished; Returned running])
              running finished [running]
              "https://videos.example/v1?alt=media" "blob:video"
              [Returned running]
              eq_refl eq_refl
              (Forall_cons running (eq_refl : not_done running) (Forall_nil _))
              eq_refl eq_refl eq_refl
              ltac:(discriminate) eq_refl)
    as [w' [H1 [_ [_ [H4 _]]]]].
  exists w'. split; [exact H1 | exact H4].
Defined.

(** X19.  Polling without end.  When the request returns an operation
    that is not done and every scripted answer is not done, the capability
    never settles: it has made one status check per answer, nothing was
    downloaded and no media item was produced.  The loop has no bound of
    its own. *)
Theorem video_keeps_polling_while_not_done
  (env : Env) (o : JsObj) (apiKey : string) (activeFile : option ActiveFile)
  (w : World) (op0 : Operation) (waiting : list Operation) :
  generateVideos env (prop o "prompt") = Returned op0 ->
  not_done op0 -> Forall not_done waiting ->
  pendingPolls w = map Returned waiting ->
  let run := executeTool env "generate_video" (Some o) apiKey
                         (handleMediaGenerated env) activeFile w in
  fst run = Pending /\
  trace (snd run) = (trace w ++ EvGenerateVideos (prop o "prompt")
                       :: repeat EvGetVideosOperation (List.length waiting))%list /\
  mediaItems (snd run) = mediaItems w /\
  pendingPolls (snd run) = [].
Proof.
  intros Hgen Hd0 Hwait Hpolls. cbv zeta.
  destruct w as [clk rn polls tr lg media st mic awake am sess].
  cbn [pendingPolls] in Hpolls. subst polls.
  unfold executeTool, try_catch, executeTool_switch.
  cbn [String.eqb Ascii.eqb Bool.eqb].
  unfold arg. run_async. rewrite Hgen. run_async.
  rewrite <- (app_nil_r (map Returned waiting)).
  rewrite (pollLoop_prefix env waiting [] Hwait)
    by (exact Hd0 || (cbn [pendingPolls]; now rewrite app_nil_r)).
  cbn [pollLoop].
  rewrite (last_not_done waiting op0 Hwait Hd0).
  unfold polled. run_async.
  rewrite <- !app_assoc. cbn [app]. repeat split.
Qed.

Lemma video_keeps_polling_while_not_done_witness :
  fst (executeTool (services true) "generate_video"
                   (Some [("prompt", JStr "a sunrise")]) "key"
                   (handleMediaGenerated (services true)) None
                   (world [Returned running; Returned running]))
  = Pending.
Proof.
  refine (proj1 (video_keeps_polling_while_not_done
                   (services true) [("prompt", JStr "a sunrise")] "key" None
                   (world [Returned running; Returned running])
                   running [running; running] eq_refl eq_refl _ eq_refl)).
  repeat constructor.
Defined.

(** X20.  A status check that fails.  When, after some answers that are
    not done, a status check throws, the capability stops polling and
    settles with a result reporting the error; nothing is downloaded and
    no media item is produced. *)
Theorem video_failed_status_check_is_reported
  (env : Env) (o : JsObj) (apiKey : string) (activeFile : option ActiveFile)
  (w : World) (op0 : Operation) (waiting : list Operation) (e : JsError)
  (rest : list (Result Operation)) :
  generateVideos env (prop o "prompt") = Returned op0 ->
  not_done op0 -> Forall not_done waiting ->
  pendingPolls w = (map Returned waiting ++ Thrown e :: rest)%list ->
  let run := executeTool env "generate_video" (Some o) apiKey
                         (handleMediaGenerated env) activeFile w in
  fst run = Settled [("result", JStr ("Error executing tool: " ++ err_message e))] /\
  count_status_checks (skipn (List.length (trace w)) (trace (snd run)))
  = S (List.length waiting) /\
  mediaItems (snd run) = mediaItems w /\
  pendingPolls (snd run) = rest.
Proof.
  intros Hgen Hd0 Hwait Hpolls. cbv zeta.
  destruct w as [clk rn polls tr lg media st mic awake am sess].
  cbn [pendingPolls] in Hpolls. subst polls.
  unfold executeTool, try_catch, executeTool_switch.
  cbn [String.eqb Ascii.eqb Bool.eqb].
  unfold arg. run_async. rewrite Hgen. run_async.
  rewrite (pollLoop_prefix env waiting (Thrown e :: rest) Hwait)
    by (exact Hd0 || reflexivity).
  cbn [pollLoop].
  rewrite (last_not_done waiting op0 Hwait Hd0).
  unfold polled. run_async.
  split; [reflexivity |].
  rewrite <- !app_assoc. rewrite skipn_length_app. cbn [app].
  split; [| split; reflexivity].
  change (EvGenerateVideos (prop o "prompt")
            :: repeat EvGetVideosOperation (List.length waiting)
            ++ [EvGetVideosOperation])%list
    with ([EvGenerateVideos (prop o "prompt")]
            ++ repeat EvGetVideosOperation (List.length waiting)
            ++ [EvGetVideosOperation])%list.
  rewrite !count_status_checks_app, count_status_checks_repeat. cbn. lia.
Qed.

Lemma video_failed_status_check_is_reported_witness :
  fst (executeTool (services true) "generate_video"
                   (Some [("prompt", JStr "a sunrise")]) "key"
                   (handleMediaGenerated (services true)) None
                   (world [Returned running; Thrown (Error "gone")]))
  = Settled [("result", JStr "Error executing tool: gone")].
Proof.
  refine (proj1 (video_failed_status_check_is_reported
                   (services true) [("prompt", JStr "a sunrise")] "key" None
                   (world [Returned running; Thrown (Error "gone")])
                   running [running] (Error "gone") [] eq_refl eq_refl _ eq_refl)).
  repeat constructor.
Defined.

(** X21.  An operation that is done at once.  When the request itself
    returns a finished operation, no status check is made and no polling
    interval is slept; if moreover the operation carries no video address,
    nothing is downloaded, no media item is produced and the result is
    ["Video generation failed."]. *)
Theorem video_done_at_once_is_not_polled
  (env : Env) (o : JsObj) (apiKey : string) (activeFile : option ActiveFile)
  (w : World) (op0 : Operation) :
  generateVideos env (prop o "prompt") = Returned op0 ->
  op_done op0 = true ->
  let run := executeTool env "generate_video" (Some o) apiKey
                         (handleMediaGenerated env) activeFile w in
  count_status_checks (skipn (List.length (trace w)) (trace (snd run))) = 0%nat /\
  pendingPolls (snd run) = pendingPolls w /\
  (truthy (op_videoUri op0) = false ->
   run = (Settled [("result", JStr "Video generation failed.")],
          set_clock (clock w + roundTrip env)%N
                    (set_trace (trace w ++ [EvGenerateVideos (prop o "prompt")])%list w))).
Proof.
  intros Hgen Hdone. cbv zeta.
  unfold executeTool, try_catch, executeTool_switch.
  cbn [String.eqb Ascii.eqb Bool.eqb].
  unfold arg. run_async. rewrite Hgen. run_async.
  rewrite (pollLoop_done env _ op0 Hdone). run_async.
  destruct (truthy (op_videoUri op0)) eqn:Et.
  - run_async.
    destruct (fetchObjectUrl env _) as [url | e]; run_async.
    + rewrite handleMediaGenerated_run. run_async.
      rewrite <- !app_assoc, skipn_length_app.
      split; [reflexivity |]. split; [reflexivity | discriminate].
    + rewrite <- !app_assoc, skipn_length_app.
      split; [reflexivity |]. split; [reflexivity | discriminate].
  - run_async. rewrite skipn_length_app.
    split; [reflexivity |]. split; [reflexivity |]. reflexivity.
Qed.

Lemma video_done_at_once_is_not_polled_witness :
  pendingPolls
    (snd (executeTool
            (mkEnv (fun _ => Thrown (Error "unused"))
                   (fun _ => Returned finished)
                   (fun _ => Returned "blob:video") None
                   (Returned tt) (Returned tt) 0 (fun _ => "k3x9")
                   (fun _ => "12:00:00") (fun _ => 0%Q))
            "generate_video" (Some [("prompt", JStr "a sunrise")]) "key"
            (handleMediaGenerated (services true)) None
            (world [Returned running])))
  = [Returned running].
Proof.
  exact (proj1 (proj2 (video_done_at_once_is_not_polled
           (mkEnv (fun _ => Thrown (Error "unused"))
                  (fun _ => Returned finished)
                  (fun _ => Returned "blob:video") None
                  (Returned tt) (Returned tt) 0 (fun _ => "k3x9")
                  (fun _ => "12:00:00") (fun _ => 0%Q))
           [("prompt", JStr "a sunrise")] "key" None
           (world [Returned running]) finished eq_refl eq_refl))).
Defined.

End ToolExtras.

(* ================================================================= *)
(** ** Further properties of the orchestrator *)

Module AppExtras.
Import Tools Declarations App Observe AsyncFacts ToolsFacts ToolProperties Samples.
Import AppProperties ToolExtras.
Local Open Scope string_scope.

Ltac orderly_parts :=
  unfold orderly;
  cbn [clock rng pendingPolls trace logs mediaItems connectionState
       isMicActive isAwake audioManagerRef sessionRef
       set_clock set_rng set_pendingPolls set_trace set_logs
       set_mediaItems set_connectionState set_isMicActive set_isAwake
       set_audioManagerRef set_sessionRef];
  do 4 (split; [first [reflexivity | assumption] |]);
  split; [| split; [| split]].

Lemma nothing_appended (A : Type) (P : A -> Prop) (l l' : list A) :
  l' = l -> exists more, l' = (l ++ more)%list /\ Forall P more.
Proof. intros ->. exists []. split; [now rewrite app_nil_r | constructor]. Qed.

Lemma nothing_appended' (A : Type) (l l' : list A) :
  l' = l -> exists more, l' = (l ++ more)%list.
Proof. intros ->. exists []. now rewrite app_nil_r. Qed.

Lemma orderly_same w w' :
  connectionState w' = connectionState w -> sessionRef w' = sessionRef w ->
  isMicActive w' = isMicActive w -> isAwake w' = isAwake w ->
  logs w' = logs w -> mediaItems w' = mediaItems w ->
  trace w' = trace w -> (clock w <= clock w')%N ->
  orderly w w'.
Proof.
  intros H1 H2 H3 H4 H5 H6 H7 H8. orderly_parts.
  - now apply nothing_appended.
  - now apply nothing_appended'.
  - now apply nothing_appended.
  - exact H8.
Qed.

Lemma orderly_refl w : orderly w w.
Proof. apply orderly_same; first [reflexivity | lia]. Qed.

Lemma orderly_trans w1 w2 w3 : orderly w1 w2 -> orderly w2 w3 -> orderly w1 w3.
Proof.
  intros [A1 [A2 [A3 [A4 [[l1 [L1 F1]] [[i1 I1] [[e1 [T1 G1]] C1]]]]]]]
         [B1 [B2 [B3 [B4 [[l2 [L2 F2]] [[i2 I2] [[e2 [T2 G2]] C2]]]]]]].
  unfold orderly.
  do 4 (split; [congruence |]).
  split; [| split; [| split]].
  - exists (l1 ++ l2)%list. split; [now rewrite L2, L1, app_assoc |].
    apply Forall_app. now split.
  - exists (i1 ++ i2)%list. now rewrite I2, I1, app_assoc.
  - exists (e1 ++ e2)%list. split; [now rewrite T2, T1, app_assoc |].
    apply Forall_app. now split.
  - lia.
Qed.

Lemma orderly_event w e :
  answers_with_result e -> orderly w (set_trace (trace w ++ [e]) w).
Proof.
  intros He. orderly_parts.
  - now apply nothing_appended.
  - now apply nothing_appended'.
  - exists [e]. split; [reflexivity | now constructor].
  - lia.
Qed.

Lemma orderly_log w l :
  log_type l <> LogType.error -> orderly w (set_logs (logs w ++ [l]) w).
Proof.
  intros Hl. orderly_parts.
  - exists [l]. split; [reflexivity | now constructor].
  - now apply nothing_appended'.
  - now apply nothing_appended.
  - lia.
Qed.

Lemma orderly_Frame : Frame orderly.
Proof.
  constructor.
  - apply orderly_refl.
  - apply orderly_trans.
  - intros w e He. apply orderly_event.
    destruct e as [| | | | | | | | | | t msg]; try exact I.
    destruct msg; try exact I. discriminate He.
  - intros w ms. apply orderly_same; first [reflexivity | cbn; lia].
  - intros w n. apply orderly_same; first [reflexivity | cbn; lia].
  - intros w p. apply orderly_same; first [reflexivity | cbn; lia].
Qed.

Lemma addLog_orderly env source text type w :
  type <> LogType.error ->
  fst (addLog env source text type w) = Settled tt /\
  orderly w (snd (addLog env source text type w)).
Proof.
  intros Ht. split; [reflexivity |].
  unfold addLog. run_async. orderly_parts.
  - eexists. split; [reflexivity |]. constructor; [exact Ht | constructor].
  - now apply nothing_appended'.
  - now apply nothing_appended.
  - lia.
Qed.

Lemma Spec_handleMediaGenerated_orderly env item :
  Spec orderly any False (handleMediaGenerated env item).
Proof.
  intros w. split; [| exact I].
  rewrite handleMediaGenerated_run_app. orderly_parts.
  - eexists. split; [reflexivity |]. constructor; [discriminate | constructor].
  - eexists. reflexivity.
  - now apply nothing_appended.
  - lia.
Qed.

Lemma handleCall_orderly env apiKey activeFile fc w :
  orderly w (snd (handleCall env apiKey activeFile fc w)).
Proof.
  unfold handleCall, try_catch.
  unfold bind at 1.
  destruct (addLog_orderly env JARVIS ("Activating Tool: " ++ fc_name fc)
              LogType.command w ltac:(discriminate)) as [Hs Ho].
  destruct (addLog env JARVIS ("Activating Tool: " ++ fc_name fc)
                   LogType.command w) as [o1 w1].
  cbn [fst snd] in Hs, Ho. subst o1.
  eapply orderly_trans; [exact Ho |]. clear Ho.
  run_async.
  set (w2 := set_trace _ w1).
  assert (H12 : orderly w1 w2) by (apply orderly_event; exact I).
  pose proof (Spec_executeTool orderly orderly_Frame False env (fc_name fc)
                (fc_args fc) apiKey (handleMediaGenerated env) activeFile
                (Spec_handleMediaGenerated_orderly env) w2) as [Hq Hout].
  destruct (executeTool env (fc_name fc) (fc_args fc) apiKey
                        (handleMediaGenerated env) activeFile w2)
    as [[o | e |] w3]; cbn [fst snd] in *; [| contradiction |].
  - eapply orderly_trans; [exact H12 |].
    eapply orderly_trans; [exact Hq |].
    apply orderly_event. exact Hout.
  - eapply orderly_trans; eassumption.
Qed.

Lemma forEachCall_orderly env apiKey activeFile calls :
  forall w, orderly w (snd (forEachCall env apiKey activeFile calls w)).
Proof.
  induction calls as [|fc rest IH]; intros w.
  - apply orderly_refl.
  - cbn [forEachCall]. unfold bind.
    pose proof (handleCall_orderly env apiKey activeFile fc w) as H.
    destruct (handleCall env apiKey activeFile fc w) as [[[] | e |] w1];
      cbn [fst snd] in *; try exact H.
    eapply orderly_trans; [exact H | apply IH].
Qed.

Lemma onmessage_orderly env apiKey activeFile message w :
  orderly w (snd (onmessage env apiKey activeFile message w)).
Proof.
  rewrite onmessage_unfold.
  assert (H : orderly w (snd (handleToolCalls env apiKey activeFile message w))).
  { unfold handleToolCalls. destruct (toolCall message).
    - apply forEachCall_orderly.
    - apply orderly_refl. }
  destruct (handleToolCalls env apiKey activeFile message w)
    as [[[] | e |] w1]; cbn [fst snd] in *; try exact H.
  eapply orderly_trans; [exact H |].
  unfold handleAudio, handleText, playOnManager.
  destruct (truthy (firstInlineData message)),
           (truthy (firstText message));
    run_async; destruct (audioManagerRef w1); run_async;
    try (apply orderly_same; first [reflexivity | cbn; lia]);
    try (eapply orderly_trans;
         [| apply addLog_orderly; discriminate];
         apply orderly_same; first [reflexivity | cbn; lia]).
Qed.

(** X22.  An inbound message only appends.  Whatever the message and
    whether or not its handling completes, the connection state, the
    session and the microphone and wake flags are left as they were;
    the log, the media items and the trace keep everything they held and
    are only appended to; the clock does not go back. *)
Theorem inbound_message_only_appends
  (env : Env) (apiKey : string) (activeFile : option ActiveFile)
  (message : LiveServerMessage) (w : World) :
  let w' := snd (onmessage env apiKey activeFile message w) in
  connectionState w' = connectionState w /\
  sessionRef w' = sessionRef w /\
  isMicActive w' = isMicActive w /\
  isAwake w' = isAwake w /\
  (exists lines, logs w' = (logs w ++ lines)%list) /\
  (exists items, mediaItems w' = (mediaItems w ++ items)%list) /\
  (exists evs, trace w' = (trace w ++ evs)%list) /\
  (clock w <= clock w')%N.
Proof.
  cbv zeta.
  destruct (onmessage_orderly env apiKey activeFile message w)
    as [H1 [H2 [H3 [H4 [[lines [L _]] [[items I0] [[evs [T _]] C]]]]]]].
  repeat (split; [assumption |]).
  split; [now exists lines |]. split; [now exists items |].
  split; [now exists evs | exact C].
Qed.


Ltac fold_lists := fold (@app Event); fold (@app LogEntry).

(** X24.  [disconnect()].  It always completes and leaves the state
    [DISCONNECTED], no session, no audio manager, the microphone and wake
    flags down; the session is closed exactly when one was held, so
    calling it again closes nothing; it keeps the media items and adds
    the one log line "Disconnected.". *)
Theorem disconnect_tears_down_once (env : Env) (w : World) :
  exists w' w'',
    disconnect env w = (Settled tt, w') /\
    disconnect env w' = (Settled tt, w'') /\
    connectionState w' = DISCONNECTED /\
    sessionRef w' = false /\ audioManagerRef w' = None /\
    isMicActive w' = false /\ isAwake w' = false /\
    mediaItems w' = mediaItems w /\
    trace w' = (trace w ++ (if sessionRef w then [EvSessionClose] else [])
                  ++ [EvSetConnectionState DISCONNECTED])%list /\
    trace w'' = (trace w' ++ [EvSetConnectionState DISCONNECTED])%list /\
    map log_line (skipn (List.length (logs w)) (logs w'))
    = [(SYSTEM, "Disconnected.", LogType.info)].
Proof.
  destruct env as [gc gv fo loc lc gum rtt rid tls ct].
  destruct w as [clk rn polls tr lg media st mic awake am sess].
  cbn [sessionRef trace logs mediaItems].
  destruct sess, am as [m |];
    (eexists; eexists;
     split; [vm_compute; reflexivity |];
     split; [vm_compute; reflexivity |]);
    cbn [connectionState sessionRef audioManagerRef isMicActive isAwake
         mediaItems trace logs];
    fold_lists;
    do 6 (split; [reflexivity |]);
    rewrite <- ?app_assoc; cbn [app];
    (split; [reflexivity |]); (split; [reflexivity |]);
    rewrite skipn_length_app; reflexivity.
Qed.

(** X25.  [connect()] with a credential.  If the channel opens, the state
    is left [CONNECTING], not [CONNECTED], a session and a fresh audio
    manager are held, and the microphone has not been asked for: only the
    [onopen] callback connects and arms the microphone.  If opening the
    channel fails, the failure is logged and teardown leaves the state
    [DISCONNECTED] with no session and no audio manager. *)
Theorem connect_with_credential
  (env : Env) (c : ascii) (key : string) (settings : Settings) (w : World) :
  exists w',
    connect env (Some (String c key)) settings w = (Settled tt, w') /\
    ~ In EvGetUserMedia (skipn (List.length (trace w)) (trace w')) /\
    clock w' = (clock w + roundTrip env)%N /\
    match liveConnect env with
    | Returned _ =>
        connectionState w' = CONNECTING /\
        sessionRef w' = true /\
        audioManagerRef w' = Some AudioManager.new /\
        isMicActive w' = isMicActive w /\
        trace w' = (trace w ++ [EvSetConnectionState CONNECTING;
                                EvLiveConnect (voiceName settings)])%list
    | Thrown e =>
        connectionState w' = DISCONNECTED /\
        sessionRef w' = false /\
        audioManagerRef w' = None /\
        isMicActive w' = false /\
        In (SYSTEM, "Initialization Failed: " ++ err_message e, LogType.error)
           (map log_line (skipn (List.length (logs w)) (logs w')))
    end.
Proof.
  destruct env as [gc gv fo loc lc gum rtt rid tls ct].
  destruct settings as [voice sens].
  destruct w as [clk rn polls tr lg media st mic awake am sess].
  cbn [liveConnect roundTrip trace logs clock isMicActive voiceName].
  destruct lc as [[] | e]; destruct awake, sess;
    (eexists; split; [vm_compute; reflexivity |]);
    cbn [connectionState sessionRef audioManagerRef isMicActive
         trace logs clock];
    fold_lists; rewrite <- ?app_assoc; cbn [app];
    rewrite ?skipn_length_app;
    (split; [cbn [In]; intuition discriminate |]);
    (split; [reflexivity |]);
    repeat (split; [reflexivity |]);
    try reflexivity;
    cbn [map log_line log_source log_text log_type In]; tauto.
Qed.

(** X26.  The [onopen] callback.  It sets the state [CONNECTED] and raises
    the microphone flag.  When an audio manager is held it asks for the
    microphone exactly once: if the request is granted the block callback
    is installed on that manager and, when a file is active, one notice
    naming the file is sent; if the request is refused the callback
    rejects, no notice is sent, no block callback is installed, and the
    state stays [CONNECTED] with the microphone flag up.  Without an audio
    manager the microphone is not asked for. *)
Theorem onopen_connects_and_asks_for_the_microphone
  (env : Env) (settings : Settings) (activeFile : option ActiveFile)
  (w : World) :
  let run := onopen env settings activeFile w in
  connectionState (snd run) = CONNECTED /\
  isMicActive (snd run) = true /\
  match audioManagerRef w, getUserMedia env with
  | Some m, Returned _ =>
      fst run = Settled tt /\
      audioManagerRef (snd run) = Some (AudioManager.initializeInput_resume m) /\
      skipn (List.length (trace w)) (trace (snd run))
      = ([EvSetConnectionState CONNECTED; EvGetUserMedia]
           ++ match activeFile with
              | Some file =>
                  [EvSend (clock w + roundTrip env)
                          (RealtimeText ("System Notification: User uploaded file '"
                                         ++ file_name file ++ "'."))]
              | None => []
              end)%list
  | Some m, Thrown e =>
      fst run = Rejected e /\
      audioManagerRef (snd run) = Some m /\
      skipn (List.length (trace w)) (trace (snd run))
      = [EvSetConnectionState CONNECTED; EvGetUserMedia]
  | None, _ =>
      fst run = Settled tt /\
      audioManagerRef (snd run) = None /\
      ~ In EvGetUserMedia (skipn (List.length (trace w)) (trace (snd run)))
  end.
Proof.
  cbv zeta.
  destruct w as [clk rn polls tr lg media st mic awake am sess].
  cbn [audioManagerRef trace clock].
  unfold onopen, addLog, initializeInput.
  destruct am as [m |]; run_async.
  - destruct (getUserMedia env) as [[] | e]; run_async.
    + destruct activeFile as [file |]; run_async;
        rewrite <- ?app_assoc; cbn [app]; rewrite skipn_length_app;
        repeat split.
    + rewrite <- ?app_assoc; cbn [app]; rewrite skipn_length_app.
      repeat split.
  - destruct activeFile as [file |]; run_async;
      rewrite <- ?app_assoc; cbn [app]; rewrite skipn_length_app;
      (split; [reflexivity |]); (split; [reflexivity |]);
      (split; [reflexivity |]); (split; [reflexivity |]);
      cbn [In]; intuition discriminate.
Qed.

(** X27.  Channel errors and channel close.  [onerror] only logs: the
    connection state, the session, the audio manager, the flags and the
    trace are untouched and one error line quoting the message is added.
    [onclose] always tears down: it logs "Link severed." and
    "Disconnected." and leaves the state [DISCONNECTED] with no session
    and no audio manager. *)
Theorem channel_error_logs_and_close_tears_down
  (env : Env) (err : JsError) (w : World) :
  (exists w',
      onerror env err w = (Settled tt, w') /\
      connectionState w' = connectionState w /\
      sessionRef w' = sessionRef w /\
      audioManagerRef w' = audioManagerRef w /\
      isMicActive w' = isMicActive w /\
      trace w' = trace w /\
      map log_line (skipn (List.length (logs w)) (logs w'))
      = [(SYSTEM, "Protocol Error: " ++ err_message err, LogType.error)]) /\
  (exists w',
      onclose env w = (Settled tt, w') /\
      connectionState w' = DISCONNECTED /\
      sessionRef w' = false /\
      audioManagerRef w' = None /\
      isMicActive w' = false /\
      map log_line (skipn (List.length (logs w)) (logs w'))
      = [(SYSTEM, "Link severed.", LogType.error);
         (SYSTEM, "Disconnected.", LogType.info)]).
Proof.
  destruct env as [gc gv fo loc lc gum rtt rid tls ct].
  destruct err as [ename emsg].
  destruct w as [clk rn polls tr lg media st mic awake am sess].
  cbn [connectionState sessionRef audioManagerRef isMicActive trace logs
       err_message].
  split.
  - eexists. split; [vm_compute; reflexivity |].
    cbn [connectionState sessionRef audioManagerRef isMicActive trace logs].
    fold_lists. rewrite skipn_length_app. repeat split.
  - destruct sess, am as [m |];
      (eexists; split; [vm_compute; reflexivity |]);
      cbn [connectionState sessionRef audioManagerRef isMicActive trace logs];
      fold_lists; rewrite <- ?app_assoc; cbn [app];
      rewrite skipn_length_app; repeat split.
Qed.

Lemma connect_final_state env apiKey settings w :
  (connectionState (snd (connect env apiKey settings w)) = CONNECTING /\
   sessionRef (snd (connect env apiKey settings w)) = true /\
   audioManagerRef (snd (connect env apiKey settings w)) = Some AudioManager.new) \/
  (connectionState (snd (connect env apiKey settings w)) = DISCONNECTED /\
   sessionRef (snd (connect env apiKey settings w)) = false /\
   audioManagerRef (snd (connect env apiKey settings w)) = None /\
   isMicActive (snd (connect env apiKey settings w)) = false).
Proof.
  destruct env as [gc gv fo loc lc gum rtt rid tls ct].
  destruct settings as [voice sens].
  destruct w as [clk rn polls tr lg media st mic awake am sess].
  destruct apiKey as [[| c k] |]; destruct lc as [[] | e];
    destruct awake, sess;
    first [ left; repeat split; vm_compute; reflexivity
          | right; repeat split; vm_compute; reflexivity ].
Qed.

Lemma disconnect_final_state env w :
  connectionState (snd (disconnect env w)) = DISCONNECTED /\
  sessionRef (snd (disconnect env w)) = false /\
  audioManagerRef (snd (disconnect env w)) = None /\
  isMicActive (snd (disconnect env w)) = false.
Proof.
  destruct env as [gc gv fo loc lc gum rtt rid tls ct].
  destruct w as [clk rn polls tr lg media st mic awake am sess].
  destruct sess, am as [m |]; repeat split; vm_compute; reflexivity.
Qed.

Lemma onclose_final_state env w :
  connectionState (snd (onclose env w)) = DISCONNECTED /\
  sessionRef (snd (onclose env w)) = false /\
  audioManagerRef (snd (onclose env w)) = None /\
  isMicActive (snd (onclose env w)) = false.
Proof.
  destruct env as [gc gv fo loc lc gum rtt rid tls ct].
  destruct w as [clk rn polls tr lg media st mic awake am sess].
  destruct sess, am as [m |]; repeat split; vm_compute; reflexivity.
Qed.

Lemma onerror_final_state env err w :
  connectionState (snd (onerror env err w)) = connectionState w /\
  sessionRef (snd (onerror env err w)) = sessionRef w /\
  audioManagerRef (snd (onerror env err w)) = audioManagerRef w /\
  isMicActive (snd (onerror env err w)) = isMicActive w.
Proof.
  destruct env as [gc gv fo loc lc gum rtt rid tls ct].
  destruct err as [ename emsg].
  destruct w as [clk rn polls tr lg media st mic awake am sess].
  repeat split; vm_compute; reflexivity.
Qed.

Lemma onopen_final_state env settings activeFile w :
  connectionState (snd (onopen env settings activeFile w)) = CONNECTED /\
  sessionRef (snd (onopen env settings activeFile w)) = sessionRef w /\
  (audioManagerRef (snd (onopen env settings activeFile w)) = None <->
   audioManagerRef w = None).
Proof.
  destruct w as [clk rn polls tr lg media st mic awake am sess].
  unfold onopen, addLog, initializeInput.
  destruct am as [m |]; run_async.
  - destruct (getUserMedia env) as [[] | e]; run_async.
    + destruct activeFile; run_async;
        (split; [reflexivity |]); (split; [reflexivity |]);
        split; discriminate.
    + (split; [reflexivity |]); (split; [reflexivity |]);
        split; discriminate.
  - destruct activeFile; run_async; repeat split.
Qed.

Lemma onmessage_final_state env apiKey activeFile message w :
  connectionState (snd (onmessage env apiKey activeFile message w))
  = connectionState w /\
  sessionRef (snd (onmessage env apiKey activeFile message w)) = sessionRef w /\
  isMicActive (snd (onmessage env apiKey activeFile message w)) = isMicActive w /\
  (audioManagerRef (snd (onmessage env apiKey activeFile message w)) = None <->
   audioManagerRef w = None).
Proof.
  destruct (onmessage_orderly env apiKey activeFile message w)
    as [H1 [H2 [H3 _]]].
  split; [exact H1 |]. split; [exact H2 |]. split; [exact H3 |].
  rewrite onmessage_unfold.
  assert (Ha : audioManagerRef (snd (handleToolCalls env apiKey activeFile message w))
               = audioManagerRef w).
  { unfold handleToolCalls. destruct (toolCall message) as [calls |].
    - apply forEachCall_spec.
    - reflexivity. }
  destruct (handleToolCalls env apiKey activeFile message w)
    as [[[] | e |] w1]; cbn [fst snd] in *; try (now rewrite Ha).
  destruct (audio_text_spec env message w1) as [w2 [E [_ [_ [Ham _]]]]].
  rewrite E. cbn [snd]. rewrite Ham, Ha.
  destruct (truthy (firstInlineData message)); [| reflexivity].
  destruct (audioManagerRef w); cbn; split; congruence.
Qed.

(** X28.  Only [onopen] connects.  After any handler, run on its own
    from any component state, the state is
    [CONNECTED] only if the handler was [onopen], or the state was
    already [CONNECTED] and the handler was one that leaves the state
    alone ([onmessage], [onerror]); and no handler leaves the state
    [ERROR] unless it found it so and left it alone: [connect] passes
    through [ERROR] to [DISCONNECTED]. *)
Theorem only_onopen_connects (env : Env) (h : Handler) (w : World) :
  let w' := snd (handle env h w) in
  (connectionState w' = CONNECTED ->
   (exists settings activeFile, h = OnOpen settings activeFile) \/
   (connectionState w = CONNECTED /\
    ((exists apiKey activeFile message, h = OnMessage apiKey activeFile message)
     \/ exists err, h = OnError err))) /\
  (connectionState w' = ERROR ->
   connectionState w = ERROR /\
   ((exists apiKey activeFile message, h = OnMessage apiKey activeFile message)
    \/ exists err, h = OnError err)).
Proof.
  cbv zeta. destruct h as [k s | | s f | k f m | | err]; cbn [handle].
  - destruct (connect_final_state env k s w) as [[H _] | [H _]];
      rewrite H; split; discriminate.
  - destruct (disconnect_final_state env w) as [H _].
    rewrite H. split; discriminate.
  - destruct (onopen_final_state env s f w) as [H _]. rewrite H.
    split; [intros _; left; eauto | discriminate].
  - destruct (onmessage_final_state env k f m w) as [H _]. rewrite H.
    split; intros Hs; [right |]; (split; [exact Hs | left; eauto]).
  - destruct (onclose_final_state env w) as [H _].
    rewrite H. split; discriminate.
  - destruct (onerror_final_state env err w) as [H _]. rewrite H.
    split; intros Hs; [right |]; (split; [exact Hs | right; eauto]).
Qed.

Lemma settled_state_step env h w :
  settled_state w -> settled_state (snd (handle env h w)).
Proof.
  intros [HE [HD HS]]. unfold settled_state.
  destruct h as [k s | | s f | k f m | | err]; cbn [handle].
  - destruct (connect_final_state env k s w)
      as [[H1 [H2 H3]] | [H1 [H2 [H3 H4]]]]; rewrite H1, H2, H3.
    + repeat split; try discriminate.
    + rewrite H4. repeat split; try discriminate.
  - destruct (disconnect_final_state env w) as [H1 [H2 [H3 H4]]].
    rewrite H1, H2, H3, H4. repeat split; try discriminate.
  - destruct (onopen_final_state env s f w) as [H1 [H2 H3]].
    rewrite H1, H2. split; [discriminate |]. split; [discriminate |].
    intros Hs Hn. apply H3 in Hn. exact (HS Hs Hn).
  - destruct (onmessage_final_state env k f m w) as [H1 [H2 [H3 H4]]].
    rewrite H1, H2, H3. split; [exact HE |]. split.
    + intros Hd. destruct (HD Hd) as [A [B C]].
      split; [exact A |]. split; [now apply H4 | exact C].
    + intros Hs Hn. apply H4 in Hn. exact (HS Hs Hn).
  - destruct (onclose_final_state env w) as [H1 [H2 [H3 H4]]].
    rewrite H1, H2, H3, H4. repeat split; try discriminate.
  - destruct (onerror_final_state env err w) as [H1 [H2 [H3 H4]]].
    rewrite H1, H2, H3, H4.
    split; [exact HE |]. split; [exact HD | exact HS].
Qed.


End AppExtras.
